(** * TOTO lottery simulator: a shallow embedding of [toto-lottery-simulator.py]

    The development models the class [TOTOLottery]: draw generation
    ([generate_winning_numbers]), prize classification ([check_prize]), the
    single draw ([play_toto]), the repeated-trial loop
    ([simulate_until_jackpot]) and the odds computation ([calculate_odds]).

    Python integers are unbounded and are modelled by [Z]; Python sets of
    integers by [gset Z]; the tally dictionary by [gmap string Z]; lists by
    [list].  The random module and the clock are the environment of the
    program and are modelled as interfaces ([RandomSource], [Clock]) whose
    states are threaded explicitly. *)

From stdpp Require Import base numbers list sorting strings pretty gmap fin_maps fin_sets.

Local Open Scope Z_scope.

(** ** Prize classification *)

Module Prize.

(** The dictionary returned by [check_prize], one field per key. *)
Record result := Result {
prize : string;
matching_numbers : list Z;
matches_count : Z;
has_additional : bool;
is_jackpot : bool
}.

(** [set(player_numbers) & set(winning_numbers)] *)
Definition common (player_numbers winning_numbers : list Z) : gset Z :=
list_to_set player_numbers ∩ list_to_set winning_numbers.

(** [check_prize], lines 19-46.  [len] of a set is [size]; [list] of a set is
  [elements], an enumeration of the set without repetition: which values
  [matching_numbers] holds is modelled, the order in which CPython lists
  them (it depends on the order of the two input lists) is not;
  [additional_number in player_numbers] is list membership. *)
Definition check_prize (player_numbers winning_numbers : list Z)
  (additional_number : Z) : result :=
let matches := Z.of_nat (size (common player_numbers winning_numbers)) in
let has_additional := bool_decide (additional_number ∈ player_numbers) in
let matching_numbers := elements (common player_numbers winning_numbers) in
let prize :=
  if matches =? 6 then "Group 1 Prize"
  else if (matches =? 5) && has_additional then "Group 2 Prize"
  else if matches =? 5 then "Group 3 Prize"
  else if (matches =? 4) && has_additional then "Group 4 Prize"
  else if matches =? 4 then "Group 5 Prize"
  else if (matches =? 3) && has_additional then "Group 6 Prize"
  else "No prize" in
{| prize := prize;
   matching_numbers := matching_numbers;
   matches_count := matches;
   has_additional := has_additional;
   is_jackpot := matches =? 6 |}.

End Prize.

Import Prize.

(** ** The environment: random source, clock, console *)

(** The generator behind Python's [random] module, seen through
    [Random._randbelow]: a call with a positive [n] returns an integer in
    [0, n) and moves the generator to its next state.  Seeding fixes the
    initial state. *)
Class RandomSource := {
  rng : Type;
  randbelow : Z → rng → Z * rng;
  randbelow_range n s : 0 < n → 0 ≤ (randbelow n s).1 < n
}.

(** The wall clock: [time.time()] (a reading in clock ticks; the float
    encoding of the reading is not modelled) and
    [datetime.now().strftime("%Y-%m-%d %H:%M:%S")]. *)
Class Clock := {
  clock : Type;
  time_time : clock → Z * clock;
  now_strftime : clock → string * clock
}.

(** What the simulation loop writes to the console.  The progress bar is
    recorded with the draw at which it is printed; its width is computed with
    floating point in the source and is not modelled. *)
Inductive event :=
  | Banner
  | ProgressBar (draws : Z)
  | UnknownCategory (prize_key : string).

(** Exceptions of the library functions that the program calls. *)
Inductive exn := ValueError | IndexError.

Inductive outcome (S A : Type) :=
  | Raise (e : exn)
  | Return (a : A) (s : S).
Arguments Raise {S A} e.
Arguments Return {S A} a s.

(** State and exception monad: a raised exception propagates to the caller. *)
Definition SE (S A : Type) : Type := S → outcome S A.

Global Instance SE_ret {S} : MRet (SE S) := λ A a s, Return a s.
Global Instance SE_bind {S} : MBind (SE S) := λ A B f m s,
  match m s with
  | Raise e => Raise e
  | Return a s' => f a s'
  end.

Definition raise {S A} (e : exn) : SE S A := λ _, Raise e.

(** Python list indexing [l[i]]: a negative index counts from the end, an
    index out of range raises [IndexError]. *)
Definition list_get {S A} (l : list A) (i : Z) : SE S A :=
  let i' := if i <? 0 then i + Z.of_nat (length l) else i in
  if i' <? 0 then raise IndexError
  else match l !! Z.to_nat i' with
       | Some x => mret x
       | None => raise IndexError
       end.

(** [sorted] on a list of integers. *)
Definition sorted (l : list Z) : list Z := merge_sort Z.le l.

(** [__init__]: [range(1, 50)] and the pick count. *)
Definition number_range : list Z := seqZ 1 49.
Definition numbers_to_pick : Z := 6.

Section Random.
Context `{RandomSource}.

Definition rand_below (n : Z) : SE rng Z := λ s,
  let '(j, s') := randbelow n s in Return j s'.

(** [random.choice(seq)]: [IndexError] on an empty sequence, otherwise
    [seq[randbelow(len(seq))]]. *)
Definition choice {A} (seq : list A) : SE rng A :=
  if decide (length seq = 0%nat) then raise IndexError
  else j ← rand_below (Z.of_nat (length seq)); list_get seq j.

(** The selection loop of [random.sample] over a pool list:
    [for i in range(k): j = randbelow(n - i); result[i] = pool[j];
     pool[j] = pool[n - i - 1]]. *)
Fixpoint sample_pool {A} (pool : list A) (n i : Z) (k : nat)
    : SE rng (list A) :=
  match k with
  | O => mret []
  | S k' =>
      j ← rand_below (n - i);
      x ← list_get pool j;
      y ← list_get pool (n - i - 1);
      rest ← sample_pool (<[Z.to_nat j := y]> pool) n (i + 1) k';
      mret (x :: rest)
  end.

(** [random.sample(population, k)]: [ValueError] unless [0 <= k <= n].
    CPython selects from a copy of the population (the loop above) when
    [n <= setsize]; for [k = 6] the threshold is [21 + 4 ** 3 = 85], which
    covers the 49 numbers of this program, the only population it samples. *)
Definition sample {A} (population : list A) (k : Z) : SE rng (list A) :=
  let n := Z.of_nat (length population) in
  if negb ((0 <=? k) && (k <=? n)) then raise ValueError
  else sample_pool population n 0 (Z.to_nat k).

(** [generate_winning_numbers], lines 12-17.  The set difference holds
    integers of 1..49; CPython keeps each of them in the slot of its own
    value (an integer hashes to itself and the table has more than 49
    slots), so [list] enumerates the difference in ascending order. *)
Definition generate_winning_numbers : SE rng (list Z * Z) :=
  picked ← sample number_range numbers_to_pick;
  let main_numbers := sorted picked in
  let remaining_numbers :=
    sorted (elements (list_to_set number_range
                        ∖ list_to_set main_numbers : gset Z)) in
  additional ← choice remaining_numbers;
  mret (main_numbers, additional).

End Random.

(** ** Odds and playing time *)

(** [math.factorial] on a non-negative integer. *)
Definition factorial (n : Z) : Z := foldr Z.mul 1 (seqZ 1 n).

(** The local function [combinations] of [calculate_odds]; [//] is floor
    division. *)
Definition combinations (n r : Z) : Z :=
  factorial n `div` (factorial r * factorial (n - r)).

(** [calculate_odds], lines 135-140. *)
Definition calculate_odds : Z := combinations 49 6.

(** Rounding of the fraction [num / den] ([den > 0]) to the nearest integer,
    ties to even. *)
Definition round_half_even (num den : Z) : Z :=
  let q := num `div` den in
  let r := num `mod` den in
  if 2 * r <? den then q
  else if den <? 2 * r then q + 1
  else if Z.even q then q else q + 1.

(** [calculate_years], lines 142-145: [round(draws / 104, 1)], a float.  The
    result is represented by its number of tenths of a year; [round] rounds
    ties to even, and the ties of [draws / 104] (fractional part .25 or .75)
    are exact floats.  The model rounds the exact quotient: it gives the
    value of the code as long as the double [draws / 104] determines the
    same tenth, which holds for the draw counts of this program (caps of
    millions of draws) and fails from about 10^16 draws on. *)
Definition calculate_years (draws : Z) : Z := round_half_even (draws * 10) 104.

(** ** Single draw and repeated simulation *)

(** The dictionary returned by [play_toto]. *)
Record play := Play {
  draw_date : string;
  player_numbers : list Z;
  winning_numbers : list Z;
  additional_number : Z;
  result_of : result
}.

(** The dictionary returned by [simulate_until_jackpot]. *)
Record summary := Summary {
  draws : Z;
  jackpot_achieved : bool;
  prize_counts : gmap string Z;
  simulation_time : Z;
  theoretical_odds : Z;
  years_equivalent : Z
}.

(** The local variables that the loop of [simulate_until_jackpot] updates. *)
Record locals := Locals {
  l_draws : Z;
  l_prize_counts : gmap string Z;
  l_jackpot_achieved : bool;
  l_next_progress : Z
}.

(** The initial tally, lines 88-96. *)
Definition initial_counts : gmap string Z :=
  <["Group 1 Prize" := 0]> (<["Group 2 Prize" := 0]> (<["Group 3 Prize" := 0]>
  (<["Group 4 Prize" := 0]> (<["Group 5 Prize" := 0]> (<["Group 6 Prize" := 0]>
  (<["No prize" := 0]> ∅)))))).

(** A [for] loop over a list of values whose body may [break]. *)
Fixpoint for_loop {S L} (body : Z → L → SE S (L * bool)) (xs : list Z) (st : L)
    : SE S L :=
  match xs with
  | [] => mret st
  | i :: xs' =>
      '(st', brk) ← body i st;
      if brk : bool then mret st' else for_loop body xs' st'
  end.

Section Simulation.
Context `{RandomSource} `{Clock}.

Record world := World {
  w_rng : rng;
  w_clock : clock;
  w_stdout : list event
}.

Definition lift_rng {A} (m : SE rng A) : SE world A := λ w,
  match m (w_rng w) with
  | Raise e => Raise e
  | Return a s => Return a (World s (w_clock w) (w_stdout w))
  end.

Definition read_time : SE world Z := λ w,
  let '(t, c) := time_time (w_clock w) in
  Return t (World (w_rng w) c (w_stdout w)).

Definition read_date : SE world string := λ w,
  let '(d, c) := now_strftime (w_clock w) in
  Return d (World (w_rng w) c (w_stdout w)).

Definition print (e : event) : SE world unit := λ w,
  Return () (World (w_rng w) (w_clock w) (w_stdout w ++ [e])).

(** [play_toto], lines 72-83. *)
Definition play_toto (player_numbers : list Z) : SE world play :=
  '(winning_numbers, additional) ← lift_rng generate_winning_numbers;
  let result := check_prize player_numbers winning_numbers additional in
  date ← read_date;
  mret {| draw_date := date;
          player_numbers := sorted player_numbers;
          winning_numbers := winning_numbers;
          additional_number := additional;
          result_of := result |}.

(** The body of the loop of [simulate_until_jackpot], lines 107-124, at
    [draws = i].  The second component of the result tells whether the
    body left the loop by [break]. *)
Definition loop_body (player_numbers : list Z) (progress_interval : Z)
    (i : Z) (st : locals) : SE world (locals * bool) :=
  '(winning_numbers, additional) ← lift_rng generate_winning_numbers;
  let result := check_prize player_numbers winning_numbers additional in
  let prize_key := prize result in
  counts ← match l_prize_counts st !! prize_key with
           | Some c => mret (<[prize_key := c + 1]> (l_prize_counts st))
           | None => _ ← print (UnknownCategory prize_key);
                     mret (l_prize_counts st)
           end;
  next_progress ← (if l_next_progress st <=? i
                   then _ ← print (ProgressBar i);
                        mret (l_next_progress st + progress_interval)
                   else mret (l_next_progress st));
  if is_jackpot result
  then mret (Locals i counts true next_progress, true)
  else mret (Locals i counts (l_jackpot_achieved st) next_progress, false).

(** [simulate_until_jackpot], lines 85-133.  [range(1, max_draws + 1)] is
    empty when [max_draws < 1], and [draws] then keeps its initial value. *)
Definition simulate_until_jackpot (player_numbers : list Z) (max_draws : Z)
    : SE world summary :=
  start_time ← read_time;
  let progress_interval := max_draws `div` 20 in
  _ ← print Banner;
  st ← for_loop (loop_body player_numbers progress_interval)
         (seqZ 1 max_draws)
         (Locals 0 initial_counts false progress_interval);
  end_time ← read_time;
  mret {| draws := l_draws st;
          jackpot_achieved := l_jackpot_achieved st;
          prize_counts := l_prize_counts st;
          simulation_time := end_time - start_time;
          theoretical_odds := calculate_odds;
          years_equivalent := calculate_years (l_draws st) |}.

End Simulation.

(** ** Entering the player numbers *)

(** One line of standard input as [get_user_numbers] reads it, that is the
    value of [list(map(int, input().strip().split()))]: the list of the
    integers on the line, or the [ValueError] of a token that is not an
    integer. *)
Inductive attempt :=
  | Unparsable
  | Numbers (numbers : list Z).

(** The messages of [get_user_numbers]. *)
Inductive message :=
  | PromptNumbers
  | ErrorCount
  | ErrorUnique
  | ErrorRange
  | ErrorInvalid.

Global Instance message_eq_dec : EqDecision message.
Proof. solve_decision. Defined.

(** [get_user_numbers], lines 48-70, on the lines left on standard input
    and the messages printed so far.  The result is the returned list, or
    [None] when the input ends: [input()] then raises [EOFError], which the
    function does not catch.  With it come the lines not read and the
    messages. *)
Fixpoint get_user_numbers (stdin : list attempt) (stdout : list message)
    : option (list Z) * list attempt * list message :=
  match stdin with
  | [] => (None, [], stdout ++ [PromptNumbers])
  | Unparsable :: rest =>
      get_user_numbers rest (stdout ++ [PromptNumbers; ErrorInvalid])
  | Numbers numbers :: rest =>
      if bool_decide (length numbers ≠ 6%nat) then
        get_user_numbers rest (stdout ++ [PromptNumbers; ErrorCount])
      else if bool_decide (size (list_to_set numbers : gset Z) ≠ 6%nat) then
        get_user_numbers rest (stdout ++ [PromptNumbers; ErrorUnique])
      else if negb (forallb (λ num, (1 <=? num) && (num <=? 49)) numbers) then
        get_user_numbers rest (stdout ++ [PromptNumbers; ErrorRange])
      else (Some (sorted numbers), rest, stdout ++ [PromptNumbers])
  end.

(** An entry that [get_user_numbers] is meant to accept: six integers,
    distinct, each in 1..49, in any order. *)
Definition acceptable (numbers : list Z) : Prop :=
  length numbers = 6%nat ∧ NoDup numbers ∧ Forall (λ x, 1 ≤ x ≤ 49) numbers.

(** A line that [get_user_numbers] is meant to reject. *)
Definition rejected (a : attempt) : Prop :=
  match a with
  | Unparsable => True
  | Numbers numbers => ¬ acceptable numbers
  end.

(** ** Specification-side definitions *)

(** The NumberSet invariant of the player's numbers, as [get_user_numbers]
    establishes it: six numbers, distinct, in 1..49, sorted ascending. *)
Definition number_set (l : list Z) : Prop :=
  length l = 6%nat ∧ NoDup l ∧ Forall (λ x, 1 ≤ x ≤ 49) l ∧ Sorted Z.le l.

Global Instance number_set_dec l : Decision (number_set l).
Proof. unfold number_set. apply _. Defined.

(** The Draw invariant. *)
Definition draw_ok (winning_numbers : list Z) (additional : Z) : Prop :=
  number_set winning_numbers ∧ 1 ≤ additional ≤ 49
  ∧ additional ∉ winning_numbers.

(** The prize tiers and the decision table of the classifier, written from
    the specification: match count and supplementary flag to tier. *)
Inductive tier := JACKPOT | TIER2 | TIER3 | TIER4 | TIER5 | TIER6 | NONE.

Definition spec_tier (matchCount : Z) (supplementaryMatched : bool) : tier :=
  match matchCount with
  | 6 => JACKPOT
  | 5 => if supplementaryMatched then TIER2 else TIER3
  | 4 => if supplementaryMatched then TIER4 else TIER5
  | 3 => if supplementaryMatched then TIER6 else NONE
  | _ => NONE
  end.

Definition tier_label (t : tier) : string :=
  match t with
  | JACKPOT => "Group 1 Prize"
  | TIER2 => "Group 2 Prize"
  | TIER3 => "Group 3 Prize"
  | TIER4 => "Group 4 Prize"
  | TIER5 => "Group 5 Prize"
  | TIER6 => "Group 6 Prize"
  | NONE => "No prize"
  end.

Definition all_tiers : list tier :=
  [JACKPOT; TIER2; TIER3; TIER4; TIER5; TIER6; NONE].

(** The number of ways of choosing [k] things out of [n], by Pascal's
    rule. *)
Fixpoint pascal (n k : nat) : Z :=
  match n, k with
  | _, O => 1
  | O, S _ => 0
  | S n', S k' => pascal n' k' + pascal n' (S k')
  end.

(** Sum of all the counts of a tally. *)
Definition tally_total (m : gmap string Z) : Z :=
  map_fold (λ _ c acc, c + acc) 0 m.

(** One more draw counted under [key], when [key] is a key of the tally. *)
Definition bump (m : gmap string Z) (key : string) : gmap string Z :=
  match m !! key with
  | Some c => <[key := c + 1]> m
  | None => m
  end.

Definition is_progress (e : event) : Prop :=
  match e with ProgressBar _ => True | _ => False end.

(** Whether the progress bar is due at a draw, for a progress interval
    that is not negative: at every draw when the interval is 0, and at the
    multiples of the interval otherwise. *)
Definition progress_due (progress_interval draws : Z) : bool :=
  (progress_interval =? 0) || (draws `mod` progress_interval =? 0).

(** The threshold [next_progress] before the draw number [a]: 0 when the
    interval is 0, and otherwise the multiple of the interval found among
    the next [pi] draw numbers. *)
Definition next_progress_at (pi a np : Z) : Prop :=
  (pi = 0 ∧ np = 0) ∨ (0 < pi ∧ a ≤ np < a + pi ∧ ∃ q, np = pi * q).

(** All the prize names of the classifier are keys of the tally. *)
Definition keys_ok (m : gmap string Z) : Prop :=
  ∀ t, is_Some (m !! tier_label t).

Definition outcome_map {S S' A} (f : S → S') (o : outcome S A)
    : outcome S' A :=
  match o with
  | Raise e => Raise e
  | Return a s => Return a (f s)
  end.

(** The value returned by a run, if it returns. *)
Definition returned {S A} (o : outcome S A) : option A :=
  match o with
  | Raise _ => None
  | Return a _ => Some a
  end.

Section Observation.
Context `{RandomSource} `{Clock}.

Definition set_clock (c : clock) (w : world) : world :=
  World (w_rng w) c (w_stdout w).

(** A computation that neither reads nor advances the clock. *)
Definition clock_blind {A} (m : SE world A) : Prop :=
  ∀ c w, m (set_clock c w) = outcome_map (set_clock c) (m w).

(** What a run of [play_toto] shows apart from the clock: every field of
    the returned dictionary but [draw_date], the state of the random
    source and the console. *)
Definition play_observed (o : outcome world play)
    : outcome (rng * list event) (list Z * list Z * Z * result) :=
  match o with
  | Raise e => Raise e
  | Return p w =>
      Return (player_numbers p, winning_numbers p, additional_number p,
              result_of p) (w_rng w, w_stdout w)
  end.

(** What a run of [simulate_until_jackpot] shows apart from the clock:
    every field of the summary but [simulation_time]. *)
Definition summary_observed (o : outcome world summary)
    : outcome (rng * list event) (Z * bool * gmap string Z * Z * Z) :=
  match o with
  | Raise e => Raise e
  | Return sm w =>
      Return (draws sm, jackpot_achieved sm, prize_counts sm,
              theoretical_odds sm, years_equivalent sm)
             (w_rng w, w_stdout w)
  end.
End Observation.

Section Trials.
Context `{RandomSource}.

(** One trial: a draw and its classification. *)
Definition trial (player_numbers : list Z) : SE rng result :=
  '(winning_numbers, additional) ← generate_winning_numbers;
  mret (check_prize player_numbers winning_numbers additional).

(** The first [k] trials of the random source, none skipped. *)
Fixpoint run_trials (player_numbers : list Z) (k : nat)
    : SE rng (list result) :=
  match k with
  | O => mret []
  | S k' =>
      r ← trial player_numbers;
      rs ← run_trials player_numbers k';
      mret (r :: rs)
  end.
End Trials.

(** Every jackpot trial of the sequence is its last trial. *)
Definition jackpot_only_last (rs : list result) : Prop :=
  ∀ i r, rs !! i = Some r → is_jackpot r = true → S i = length rs.

(** ** A concrete environment *)

(** A scripted random source: the tape lists the raw values that the
    generator will produce, each reduced into the requested range; an
    exhausted tape produces zeros. *)
Definition tape_randbelow (n : Z) (s : list Z) : Z * list Z :=
  match s with
  | [] => (0, [])
  | x :: s' => (x `mod` n, s')
  end.

Definition tape_source : RandomSource.
Proof.
  refine {| rng := list Z; randbelow := tape_randbelow |}.
  abstract (intros n s Hn; destruct s as [|x s]; simpl; [lia|];
            apply Z.mod_pos_bound; lia).
Defined.

(** A clock given by its current reading and the number of ticks by which
    it advances at each reading. *)
Definition tick_clock : Clock :=
  {| clock := Z * Z;
     time_time := λ '(t, step), (t, (t + step, step));
     now_strftime := λ '(t, step), (pretty t, (t + step, step)) |}.

Definition tape_world (tape : list Z) (t step : Z)
    : @world tape_source tick_clock :=
  @World tape_source tick_clock tape (t, step) [].

(** * Theorems *)

(** ** The model on the scenarios of the specification *)

Example check_prize_jackpot :
  let r := check_prize [1;2;3;4;5;6] [1;2;3;4;5;6] 7 in
  (prize r, matches_count r, is_jackpot r) = ("Group 1 Prize", 6, true).
Proof. vm_compute. reflexivity. Qed.

Example check_prize_tier4 :
  let r := check_prize [1;2;3;4;5;6] [1;2;3;4;8;9] 5 in
  (prize r, matches_count r, has_additional r, sorted (matching_numbers r))
  = ("Group 4 Prize", 4, true, [1;2;3;4]).
Proof. vm_compute. reflexivity. Qed.

Example spec_tier_table :
  (λ '(m, b), spec_tier m b) <$>
    [(6,false); (6,true); (5,true); (5,false); (4,true); (4,false);
     (3,true); (3,false); (2,true); (2,false); (1,true); (1,false);
     (0,true); (0,false)]
  = [JACKPOT; JACKPOT; TIER2; TIER3; TIER4; TIER5;
     TIER6; NONE; NONE; NONE; NONE; NONE; NONE; NONE].
Proof. reflexivity. Qed.

(** ** Prize classification *)

Section Classification.
Implicit Types (pn wn : list Z) (a : Z).

Lemma elem_of_common pn wn x : x ∈ common pn wn ↔ x ∈ pn ∧ x ∈ wn.
Proof. unfold common. set_solver. Qed.

Lemma common_filter pn wn :
  common pn wn = list_to_set (filter (λ x, x ∈ wn) pn).
Proof.
  apply set_eq. intros x.
  rewrite elem_of_common, elem_of_list_to_set, list_elem_of_filter. tauto.
Qed.

(** The size of the intersection counts the distinct common values. *)
Lemma size_common pn wn :
  size (common pn wn)
  = length (remove_dups (filter (λ x, x ∈ wn) pn)).
Proof.
  rewrite common_filter.
  rewrite <- (size_list_to_set (C:=gset Z) (remove_dups _))
    by apply NoDup_remove_dups.
  f_equal. apply set_eq. intros x.
  by rewrite !elem_of_list_to_set, elem_of_remove_dups.
Qed.

Lemma size_common_NoDup pn wn :
  NoDup pn → size (common pn wn) = length (filter (λ x, x ∈ wn) pn).
Proof.
  intros Hnd. rewrite common_filter.
  apply size_list_to_set. by apply NoDup_filter.
Qed.

Lemma size_common_le pn wn : (size (common pn wn) ≤ length pn)%nat.
Proof.
  rewrite size_common.
  etrans; [|apply (length_filter (λ x, x ∈ wn))].
  generalize (filter (λ x, x ∈ wn) pn). intros l.
  induction l as [|x l IH]; simpl; [done|].
  case_decide; simpl; lia.
Qed.

(** The table of the specification read as an ordered decision list. *)
Lemma spec_tier_decision_list m b :
  spec_tier m b =
    if m =? 6 then JACKPOT
    else if (m =? 5) && b then TIER2
    else if m =? 5 then TIER3
    else if (m =? 4) && b then TIER4
    else if m =? 4 then TIER5
    else if (m =? 3) && b then TIER6
    else NONE.
Proof.
  destruct m as [|p|p]; [reflexivity| |reflexivity].
  destruct p as [[[]|[]|]|[[]|[]|]|]; destruct b; reflexivity.
Qed.

Lemma prize_spec_tier pn wn a :
  let r := check_prize pn wn a in
  prize r = tier_label (spec_tier (matches_count r) (has_additional r)).
Proof.
  simpl. rewrite spec_tier_decision_list.
  generalize (Z.of_nat (size (common pn wn))). intros m.
  destruct (m =? 6), (m =? 5), (m =? 4), (m =? 3), (bool_decide (a ∈ pn));
    reflexivity.
Qed.

Lemma tier_label_key t : is_Some (initial_counts !! tier_label t).
Proof. destruct t; vm_compute; eauto. Qed.

Lemma matching_numbers_spec pn wn a x :
  x ∈ matching_numbers (check_prize pn wn a) ↔ x ∈ pn ∧ x ∈ wn.
Proof. simpl. by rewrite elem_of_elements, elem_of_common. Qed.
End Classification.

(** C1. [check_prize] assigns the prize by the decision table of the
    specification, applied to the number of distinct player numbers that
    occur among the winning numbers and to whether the additional number is
    a player number: these are the match count and the flag it reports, 6
    is Group 1 whatever the flag, 5 is Group 2 with the flag and Group 3
    without, 4 is Group 4 with and Group 5 without, 3 with the flag is
    Group 6, and everything else is "No prize"; the jackpot flag is set
    exactly for the top tier.  Each of the fourteen pairs of a match count
    in 0..6 and a flag is reached on a ticket, with the prize of the
    table. *)
Theorem check_prize_tier_assignment (pn wn : list Z) (a : Z) :
  let m := Z.of_nat (length (remove_dups (filter (λ x, x ∈ wn) pn))) in
  let b := bool_decide (a ∈ pn) in
  let r := check_prize pn wn a in
  matches_count r = m
  ∧ has_additional r = b
  ∧ prize r = tier_label (spec_tier m b)
  ∧ (is_jackpot r = true ↔ spec_tier m b = JACKPOT)
  ∧ (λ '(wn', a'),
       let r' := check_prize [1;2;3;4;5;6] wn' a' in
       (matches_count r', has_additional r', prize r'))
      <$> [([1;2;3;4;5;6], 7); ([1;2;3;4;5;6], 1);
           ([1;2;3;4;5;7], 6); ([1;2;3;4;5;7], 8);
           ([1;2;3;4;7;8], 5); ([1;2;3;4;7;8], 9);
           ([1;2;3;7;8;9], 4); ([1;2;3;7;8;9], 10);
           ([1;2;7;8;9;10], 3); ([1;2;7;8;9;10], 11);
           ([1;7;8;9;10;11], 2); ([1;7;8;9;10;11], 12);
           ([7;8;9;10;11;12], 1); ([7;8;9;10;11;12], 13)]
    = [(6, false, "Group 1 Prize"); (6, true, "Group 1 Prize");
       (5, true, "Group 2 Prize"); (5, false, "Group 3 Prize");
       (4, true, "Group 4 Prize"); (4, false, "Group 5 Prize");
       (3, true, "Group 6 Prize"); (3, false, "No prize");
       (2, true, "No prize"); (2, false, "No prize");
       (1, true, "No prize"); (1, false, "No prize");
       (0, true, "No prize"); (0, false, "No prize")].
Proof.
  intros m b r.
  assert (Hm : matches_count r = m).
  { subst r m. simpl. by rewrite size_common. }
  assert (Hb : has_additional r = b) by reflexivity.
  split; [exact Hm|]. split; [exact Hb|].
  rewrite <- Hm, <- Hb. split; [apply prize_spec_tier|]. split.
  - subst r. simpl. rewrite spec_tier_decision_list.
    generalize (Z.of_nat (size (common pn wn))). intros k.
    destruct (k =? 6), (k =? 5), (k =? 4), (k =? 3), (bool_decide (a ∈ pn));
      simpl; split; congruence.
  - vm_compute. reflexivity.
Qed.

(** C4. For player numbers satisfying the NumberSet invariant,
    [check_prize] reports as match count the number of player numbers that
    occur among the winning numbers, a value between 0 and 6; the additional
    flag is set exactly when the additional number is one of the player
    numbers; and the matching numbers are, without repetition, exactly the
    numbers common to both lists. *)
Theorem check_prize_matches (pn wn : list Z) (a : Z) :
  number_set pn →
  let r := check_prize pn wn a in
  matches_count r = Z.of_nat (length (filter (λ x, x ∈ wn) pn))
  ∧ 0 ≤ matches_count r ≤ 6
  ∧ (has_additional r = true ↔ a ∈ pn)
  ∧ (∀ x, x ∈ matching_numbers r ↔ x ∈ pn ∧ x ∈ wn)
  ∧ NoDup (matching_numbers r)
  ∧ Z.of_nat (length (matching_numbers r)) = matches_count r.
Proof.
  intros (Hlen & Hnd & _ & _) r.
  assert (Hm : matches_count r = Z.of_nat (length (filter (λ x, x ∈ wn) pn))).
  { subst r. simpl. by rewrite size_common_NoDup. }
  split; [exact Hm|]. split.
  { pose proof (length_filter (λ x, x ∈ wn) pn). lia. }
  split; [apply bool_decide_eq_true|].
  split; [intros x; apply matching_numbers_spec|].
  subst r; simpl. split; [apply NoDup_elements|reflexivity].
Qed.

Lemma check_prize_matches_witness :
  let r := check_prize [1;2;3;4;5;6] [1;2;3;4;8;9] 5 in
  matches_count r
    = Z.of_nat (length (filter (λ x, x ∈ [1;2;3;4;8;9]) [1;2;3;4;5;6]))
  ∧ 0 ≤ matches_count r ≤ 6
  ∧ (has_additional r = true ↔ 5 ∈ [1;2;3;4;5;6])
  ∧ (∀ x, x ∈ matching_numbers r ↔ x ∈ [1;2;3;4;5;6] ∧ x ∈ [1;2;3;4;8;9])
  ∧ NoDup (matching_numbers r)
  ∧ Z.of_nat (length (matching_numbers r)) = matches_count r.
Proof.
  apply (check_prize_matches [1;2;3;4;5;6] [1;2;3;4;8;9] 5).
  apply (bool_decide_unpack _). vm_compute. exact I.
Defined.

(** C10. [check_prize] validates nothing: on arbitrary lists of integers,
    whatever their length, repetitions or range, it returns a result, whose
    match count is the number of distinct values common to the two lists,
    whose flag tells whether the additional number occurs in the first list,
    whose matching numbers are the common values, and whose prize follows
    from the count and the flag by the same table. *)
Theorem check_prize_total (pn wn : list Z) (a : Z) :
  let r := check_prize pn wn a in
  matches_count r
    = Z.of_nat (length (remove_dups (filter (λ x, x ∈ wn) pn)))
  ∧ has_additional r = bool_decide (a ∈ pn)
  ∧ (∀ x, x ∈ matching_numbers r ↔ x ∈ pn ∧ x ∈ wn)
  ∧ prize r = tier_label (spec_tier (matches_count r) (has_additional r))
  ∧ is_jackpot r = bool_decide (matches_count r = 6).
Proof.
  intros r. split; [|split; [|split; [|split]]].
  - subst r. simpl. by rewrite size_common.
  - reflexivity.
  - intros x. apply matching_numbers_spec.
  - apply prize_spec_tier.
  - subst r. simpl.
    destruct (Z.eqb_spec (Z.of_nat (size (common pn wn))) 6) as [E|E].
    + by rewrite bool_decide_eq_true_2.
    + by rewrite bool_decide_eq_false_2.
Qed.

(** [check_prize] on inputs that violate the NumberSet invariant: an empty
    list, a list of repeated values, a list that is too long and out of
    range. *)
Example check_prize_invalid_inputs :
  let r1 := check_prize [] [1;2;3;4;5;6] 7 in
  let r2 := check_prize [7;7;7;7;7;7] [1;2;3;4;5;7] 7 in
  let r3 := check_prize [0;1;2;3;4;5;6;99] [0;1;2;3;4;5;6] (-1) in
  (prize r1, matches_count r1, has_additional r1) = ("No prize", 0, false)
  ∧ (prize r2, matches_count r2, has_additional r2) = ("No prize", 1, true)
  ∧ (prize r3, matches_count r3, is_jackpot r3) = ("No prize", 7, false).
Proof. vm_compute. done. Qed.

(** ** Odds *)

Lemma calculate_odds_value : calculate_odds = 13983816.
Proof. vm_compute. reflexivity. Qed.

(** ** Draw generation *)

Section ListGet.
Context {S A : Type}.

Lemma list_get_lookup (l : list A) (i : Z) (x : A) (s : S) :
  0 ≤ i → l !! Z.to_nat i = Some x → list_get l i s = Return x s.
Proof.
  intros Hi Hx. unfold list_get.
  destruct (Z.ltb_spec i 0) as [?|_]; [lia|].
  destruct (Z.ltb_spec i 0) as [?|_]; [lia|].
  by rewrite Hx.
Qed.
End ListGet.

(** One step of the selection loop on the pool: the vacancy at [j] is
    filled with the last live element, and the live part shrinks by one. *)
Lemma pool_step {A} (pool : list A) (m j : nat) (x y : A) :
  pool !! j = Some x → pool !! m = Some y → (j ≤ m)%nat →
  take m (<[j := y]> pool) ++ [x] ≡ₚ take (S m) pool.
Proof.
  intros Hx Hy Hjm. rewrite (take_S_r _ _ _ Hy).
  destruct (decide (j = m)) as [->|Hne].
  - rewrite list_insert_id by done.
    assert (x = y) as -> by congruence. done.
  - rewrite take_insert_lt by lia.
    assert (Hl : take m pool !! j = Some x).
    { rewrite lookup_take_lt by lia. done. }
    rewrite insert_take_drop by (apply lookup_lt_Some in Hl; done).
    rewrite <- (take_drop_middle _ _ _ Hl) at 3.
    rewrite <- !app_assoc. simpl.
    apply Permutation_app_head.
    rewrite !(Permutation_app_comm (drop _ _)). simpl.
    apply perm_swap.
Qed.

Section Generation.
Context `{RandomSource}.

Lemma rand_below_range n s :
  0 < n → ∃ j s', rand_below n s = Return j s' ∧ 0 ≤ j < n.
Proof.
  intros Hn. unfold rand_below.
  pose proof (randbelow_range n s Hn) as Hr.
  destruct (randbelow n s) as [j s']. eauto.
Qed.

(** The selection loop returns [k] distinct elements of the live part of
    the pool, provided the live part has no repetition and at least [k]
    elements. *)
Lemma sample_pool_spec {A} (k : nat) :
  ∀ (pool : list A) (n i : Z) (s : rng),
    Z.of_nat k ≤ n - i → n - i ≤ Z.of_nat (length pool) →
    NoDup (take (Z.to_nat (n - i)) pool) →
    ∃ res s', sample_pool pool n i k s = Return res s'
      ∧ length res = k ∧ NoDup res
      ∧ res ⊆ take (Z.to_nat (n - i)) pool.
Proof.
  induction k as [|k IH]; intros pool n i s Hk Hlen Hnd.
  { exists [], s. repeat split; [constructor|set_solver]. }
  simpl. unfold mbind, SE_bind.
  destruct (rand_below_range (n - i) s) as (j & s1 & -> & Hj); [lia|].
  destruct (lookup_lt_is_Some_2 pool (Z.to_nat j)) as [x Hx]; [lia|].
  destruct (lookup_lt_is_Some_2 pool (Z.to_nat (n - i - 1))) as [y Hy];
    [lia|].
  rewrite (list_get_lookup pool j x s1 (proj1 Hj) Hx).
  assert (Hlast : 0 ≤ n - i - 1) by lia.
  rewrite (list_get_lookup pool (n - i - 1) y s1 Hlast Hy).
  pose proof (pool_step pool (Z.to_nat (n - i - 1)) (Z.to_nat j) x y
                Hx Hy ltac:(lia)) as Hperm.
  replace (S (Z.to_nat (n - i - 1))) with (Z.to_nat (n - i)) in Hperm
    by lia.
  rewrite <- Hperm in Hnd. apply NoDup_app in Hnd as (Hnd' & Hx' & _).
  destruct (IH (<[Z.to_nat j := y]> pool) n (i + 1) s1)
    as (res & s' & -> & Hres & Hndres & Hsub).
  - lia.
  - rewrite length_insert. lia.
  - by replace (n - (i + 1)) with (n - i - 1) by lia.
  - replace (n - (i + 1)) with (n - i - 1) in Hsub by lia.
    exists (x :: res), s'. split; [done|]. split; [simpl; lia|]. split.
    + constructor; [|done]. intros Hin. apply Hsub in Hin.
      apply (Hx' x Hin). by left.
    + rewrite <- Hperm. intros z Hz. apply elem_of_app.
      apply elem_of_cons in Hz as [->|Hz]; [right; by left|left; auto].
Qed.

Lemma sample_spec {A} (population : list A) (k : Z) (s : rng) :
  0 ≤ k ≤ Z.of_nat (length population) → NoDup population →
  ∃ res s', sample population k s = Return res s'
    ∧ Z.of_nat (length res) = k ∧ NoDup res ∧ res ⊆ population.
Proof.
  intros Hk Hnd. unfold sample.
  destruct (Z.leb_spec 0 k); [|lia].
  destruct (Z.leb_spec k (Z.of_nat (length population))); [|lia]. simpl.
  destruct (sample_pool_spec (Z.to_nat k) population
              (Z.of_nat (length population)) 0 s)
    as (res & s' & -> & Hlen & Hndres & Hsub).
  - lia.
  - lia.
  - rewrite take_ge by lia. done.
  - rewrite take_ge in Hsub by lia.
    exists res, s'. repeat split; [lia|done|done].
Qed.

Lemma choice_spec {A} (seq : list A) (s : rng) :
  seq ≠ [] → ∃ x s', choice seq s = Return x s' ∧ x ∈ seq.
Proof.
  intros Hne. unfold choice.
  destruct (decide (length seq = 0%nat)) as [E|E].
  { by apply nil_length_inv in E. }
  unfold mbind, SE_bind.
  destruct (rand_below_range (Z.of_nat (length seq)) s)
    as (j & s' & -> & Hj); [lia|].
  destruct (lookup_lt_is_Some_2 seq (Z.to_nat j)) as [x Hx]; [lia|].
  rewrite (list_get_lookup seq j x s' (proj1 Hj) Hx).
  exists x, s'. split; [done|]. by eapply list_elem_of_lookup_2.
Qed.

Lemma sorted_number_set (picked : list Z) :
  length picked = 6%nat → NoDup picked → picked ⊆ number_range →
  number_set (sorted picked).
Proof.
  intros Hlen Hnd Hsub. unfold sorted.
  pose proof (merge_sort_Permutation Z.le picked) as Hperm.
  repeat split.
  - by rewrite Hperm.
  - by rewrite Hperm.
  - rewrite Hperm. apply Forall_forall. intros x Hx.
    apply Hsub, elem_of_seqZ in Hx. lia.
  - apply (Sorted_merge_sort Z.le).
Qed.

(** The numbers left for the additional number: 43 of them. *)
Lemma remaining_numbers_length (main_numbers : list Z) :
  number_set main_numbers →
  length (elements (list_to_set number_range
                      ∖ list_to_set main_numbers : gset Z)) = 43%nat.
Proof.
  intros (Hlen & Hnd & Hrange & _).
  change (size (list_to_set number_range
                  ∖ list_to_set main_numbers : gset Z) = 43%nat).
  rewrite size_difference.
  - rewrite !size_list_to_set by (done || apply NoDup_seqZ).
    rewrite Hlen. reflexivity.
  - intros x Hx. apply elem_of_list_to_set in Hx.
    apply elem_of_list_to_set, elem_of_seqZ.
    rewrite Forall_forall in Hrange. specialize (Hrange x Hx). lia.
Qed.

Lemma elem_of_sorted (x : Z) (l : list Z) : x ∈ sorted l ↔ x ∈ l.
Proof. unfold sorted. by rewrite merge_sort_Permutation. Qed.

Lemma length_sorted (l : list Z) : length (sorted l) = length l.
Proof. unfold sorted. by rewrite merge_sort_Permutation. Qed.

(** [generate_winning_numbers] returns, whatever the state of the random
    source, and what it returns is a valid draw. *)
Lemma generate_winning_numbers_ok (s : rng) :
  ∃ wn a s', generate_winning_numbers s = Return (wn, a) s' ∧ draw_ok wn a.
Proof.
  unfold generate_winning_numbers, mbind, SE_bind.
  destruct (sample_spec number_range numbers_to_pick s)
    as (picked & s1 & -> & Hlen & Hnd & Hsub).
  { vm_compute. split; discriminate. }
  { apply NoDup_seqZ. }
  assert (Hset : number_set (sorted picked)).
  { apply sorted_number_set; [unfold numbers_to_pick in Hlen; lia|done..]. }
  pose proof (remaining_numbers_length _ Hset) as Hrem.
  destruct (choice_spec
              (sorted (elements (list_to_set number_range
                                   ∖ list_to_set (sorted picked) : gset Z)))
              s1)
    as (a & s' & -> & Ha).
  { intros E. rewrite <- length_sorted, E in Hrem. discriminate. }
  exists (sorted picked), a, s'. split; [done|].
  apply elem_of_sorted, elem_of_elements, elem_of_difference in Ha
    as [Hin Hnotin].
  rewrite elem_of_list_to_set in Hin, Hnotin.
  apply elem_of_seqZ in Hin. repeat split; try apply Hset; try lia; done.
Qed.
End Generation.

(** C2. Whatever the state of the random source,
    [generate_winning_numbers] returns a draw: six winning numbers, distinct,
    each in 1..49, sorted ascending, and an additional number in 1..49 that
    is not one of the six; the additional number is drawn from the list of
    the remaining numbers, which has 43 elements. *)
Theorem generate_winning_numbers_draw `{RandomSource} (s : rng) :
  ∃ wn a s',
    generate_winning_numbers s = Return (wn, a) s'
    ∧ length wn = 6%nat ∧ NoDup wn ∧ Forall (λ x, 1 ≤ x ≤ 49) wn
    ∧ Sorted Z.le wn
    ∧ 1 ≤ a ≤ 49 ∧ (a ∉ wn)
    ∧ a ∈ elements (list_to_set number_range ∖ list_to_set wn : gset Z)
    ∧ length (elements (list_to_set number_range
                          ∖ list_to_set wn : gset Z)) = 43%nat.
Proof.
  destruct (generate_winning_numbers_ok s)
    as (wn & a & s' & Hgen & Hset & Ha & Hnotin).
  exists wn, a, s'. split; [done|].
  destruct Hset as (Hlen & Hnd & Hrange & Hsorted).
  repeat split; try done; try lia.
  - apply elem_of_elements, elem_of_difference.
    rewrite !elem_of_list_to_set. split; [|done].
    apply elem_of_seqZ. lia.
  - by apply remaining_numbers_length.
Qed.

(** ** The tally *)

Section Tally.
Implicit Types (m : gmap string Z) (key : string).

Lemma tally_total_increment m key c :
  m !! key = Some c →
  tally_total (<[key := c + 1]> m) = tally_total m + 1.
Proof.
  intros Hkey. unfold tally_total.
  rewrite (map_fold_delete_L _ _ key c m); [|intros; lia|done].
  rewrite <- (insert_delete_eq m).
  rewrite map_fold_insert_L; [lia|intros; lia|apply lookup_delete_eq].
Qed.

Lemma tally_total_bump m key :
  is_Some (m !! key) → tally_total (bump m key) = tally_total m + 1.
Proof.
  intros [c Hc]. unfold bump. rewrite Hc. by apply tally_total_increment.
Qed.

Lemma bump_lookup_is_Some m key key' :
  is_Some (bump m key !! key') ↔ is_Some (m !! key').
Proof.
  unfold bump. destruct (m !! key) as [c|] eqn:E; [|done].
  destruct (decide (key = key')) as [<-|Hne].
  - rewrite lookup_insert_eq, E. split; eauto.
  - by rewrite lookup_insert_ne.
Qed.

Lemma keys_ok_bump m key : keys_ok m → keys_ok (bump m key).
Proof. intros Hm t. apply bump_lookup_is_Some, Hm. Qed.

Lemma keys_ok_initial : keys_ok initial_counts.
Proof. intros t. apply tier_label_key. Qed.

Lemma dom_bump m key : dom (bump m key) = dom m.
Proof.
  apply set_eq. intros key'.
  by rewrite !elem_of_dom, bump_lookup_is_Some.
Qed.

Lemma prize_key_ok m (pn wn : list Z) (a : Z) :
  keys_ok m → is_Some (m !! prize (check_prize pn wn a)).
Proof. intros Hm. rewrite prize_spec_tier. apply Hm. Qed.

(** Counting a sequence of trials adds one to the total per trial and
    keeps the keys. *)
Lemma tally_fold (rs : list result) :
  ∀ m, keys_ok m →
    Forall (λ r, ∃ t, prize r = tier_label t) rs →
    let m' := foldl bump m (prize <$> rs) in
    tally_total m' = tally_total m + Z.of_nat (length rs)
    ∧ dom m' = dom m ∧ keys_ok m'.
Proof.
  induction rs as [|r rs IH]; intros m Hm Hrs; cbn zeta.
  { simpl. split; [lia|done]. }
  apply Forall_cons in Hrs as [[t Ht] Hrs].
  destruct (IH (bump m (prize r)) (keys_ok_bump _ _ Hm) Hrs)
    as (Htot & Hdom & Hkeys).
  rewrite fmap_cons. simpl foldl.
  split; [|split; [by rewrite Hdom, dom_bump|done]].
  rewrite Htot, tally_total_bump; [simpl length; lia|].
  rewrite Ht. apply Hm.
Qed.
End Tally.

(** ** The simulation loop *)

Section Loop.
Context `{RandomSource} `{Clock}.
Implicit Types (pn : list Z) (st : locals) (w : world).

Local Opaque check_prize.

Lemma trial_ok pn (s : rng) :
  ∃ wn a s', generate_winning_numbers s = Return (wn, a) s'
    ∧ trial pn s = Return (check_prize pn wn a) s'.
Proof.
  destruct (generate_winning_numbers_ok s) as (wn & a & s' & Hgen & _).
  exists wn, a, s'. split; [done|].
  unfold trial, mbind, SE_bind. by rewrite Hgen.
Qed.

(** One iteration: it consumes one trial, counts it in the tally, prints
    at most a progress bar, and breaks exactly on a jackpot. *)
Lemma loop_body_spec pn (pi i : Z) st w :
  keys_ok (l_prize_counts st) →
  ∃ r s' evs np,
    trial pn (w_rng w) = Return r s'
    ∧ (∃ t, prize r = tier_label t)
    ∧ loop_body pn pi i st w
      = Return (Locals i (bump (l_prize_counts st) (prize r))
                  (if is_jackpot r then true else l_jackpot_achieved st)
                  np,
                is_jackpot r)
               (World s' (w_clock w) (w_stdout w ++ evs))
    ∧ Forall is_progress evs.
Proof.
  intros Hkeys.
  destruct (trial_ok pn (w_rng w)) as (wn & a & s' & Hgen & Htrial).
  destruct (prize_key_ok _ pn wn a Hkeys) as [c Hc].
  exists (check_prize pn wn a), s'.
  unfold loop_body, mbind, SE_bind, lift_rng. rewrite Hgen, Hc.
  unfold bump. rewrite Hc. unfold mret, SE_ret, print. simpl.
  destruct (l_next_progress st <=? i); simpl;
    [exists [ProgressBar i], (l_next_progress st + pi)
    |exists [], (l_next_progress st); rewrite app_nil_r];
    (split; [done|]);
    (split; [eexists; apply prize_spec_tier|]);
    (split; [by destruct (is_jackpot _)|]);
    repeat constructor.
Qed.

Lemma last_cons_default (d i : Z) (l : list Z) :
  default d (last (i :: l)) = default i (last l).
Proof.
  destruct l as [|j l]; [done|].
  change (last (i :: j :: l)) with (last (j :: l)).
  destruct (proj2 (last_is_Some (j :: l))) as [x ->]; done.
Qed.

Lemma jackpot_only_last_cons (r : result) (rs : list result) :
  is_jackpot r = false → jackpot_only_last rs → jackpot_only_last (r :: rs).
Proof.
  intros Hr Hrs [|i] r' Hlook Hjack; simpl in *.
  - congruence.
  - f_equal. by eapply Hrs.
Qed.

(** The loop over the draw numbers [xs]: it performs the first trials of
    the random source in order, stops after the first jackpot, and leaves
    in [draws] the number of the last trial performed. *)
Lemma for_loop_spec pn (pi : Z) (xs : list Z) :
  ∀ st w, keys_ok (l_prize_counts st) →
    ∃ rs s' evs np b,
      (length rs ≤ length xs)%nat
      ∧ run_trials pn (length rs) (w_rng w) = Return rs s'
      ∧ Forall (λ r, ∃ t, prize r = tier_label t) rs
      ∧ for_loop (loop_body pn pi) xs st w
        = Return (Locals (default (l_draws st) (last (take (length rs) xs)))
                    (foldl bump (l_prize_counts st) (prize <$> rs)) b np)
                 (World s' (w_clock w) (w_stdout w ++ evs))
      ∧ Forall is_progress evs
      ∧ jackpot_only_last rs
      ∧ (b = true ∧ (∃ r, last rs = Some r ∧ is_jackpot r = true)
         ∨ b = l_jackpot_achieved st ∧ length rs = length xs
           ∧ Forall (λ r, is_jackpot r = false) rs).
Proof.
  induction xs as [|i xs IH]; intros st w Hkeys.
  { exists [], (w_rng w), [], (l_next_progress st), (l_jackpot_achieved st).
    destruct st, w. simpl. rewrite app_nil_r.
    split_and!; [done|done|constructor|done|constructor| |].
    - intros i r Hl. by rewrite lookup_nil in Hl.
    - right. split_and!; [done|done|constructor]. }
  destruct (loop_body_spec pn pi i st w Hkeys)
    as (r & s1 & evs1 & np1 & Htrial & Hprize & Hbody & Hevs1).
  simpl for_loop. unfold mbind at 1, SE_bind at 1. rewrite Hbody.
  destruct (is_jackpot r) eqn:Hjack.
  - exists [r], s1, evs1, np1, true. simpl.
    unfold mbind, SE_bind. rewrite Htrial, ?take_0.
    split_and!; [lia|done|by repeat constructor|done|done| |].
    + intros [|j] r' Hl Hr'; [done|]. by destruct j.
    + left. split; [done|]. by exists r.
  - match goal with |- context [for_loop _ xs ?st1 ?w1] =>
      destruct (IH st1 w1) as (rs & s' & evs & np & b & Hlen & Hrun & Hprizes
                               & Hloop & Hevs & Honly & Hend);
      [by apply keys_ok_bump|]; rewrite Hloop end.
    simpl in *.
    exists (r :: rs), s', (evs1 ++ evs), np, b. simpl.
    unfold mbind, SE_bind. rewrite Htrial. fold (@run_trials H pn).
    rewrite Hrun, last_cons_default, app_assoc.
    split_and!; [lia|done|by constructor|done|by apply Forall_app| |].
    + by apply jackpot_only_last_cons.
    + destruct Hend as [(-> & r' & Hlast & Hr')|(-> & Hk & Hall)].
      * left. split; [done|]. exists r'. split; [|done].
        destruct rs; done.
      * right. split_and!; [done|lia|by constructor].
Qed.
End Loop.

(** ** The repeated simulation *)

Section Summary.
Context `{RandomSource} `{Clock}.
Implicit Types (pn : list Z) (w : world).

(** The number of the last draw made when [k] draws were made. *)
Lemma last_draw_number (k : nat) (N : Z) :
  (k ≤ Z.to_nat N)%nat →
  default 0 (last (take k (seqZ 1 N))) = Z.of_nat k.
Proof.
  intros Hk. rewrite last_lookup, length_take, length_seqZ.
  replace (k `min` Z.to_nat N)%nat with k by lia.
  destruct k as [|k]; [done|]. simpl.
  rewrite lookup_take_lt by lia.
  rewrite lookup_seqZ_lt by lia. simpl. lia.
Qed.

(** What a run of [simulate_until_jackpot] does, for any player numbers,
    any cap and any state of the environment: it returns; the trials it
    makes are the first trials of the random source, in order, up to the
    first jackpot or to the cap; the summary counts them. *)
Lemma simulate_until_jackpot_spec pn (N : Z) w :
  ∃ rs sm w' evs,
    simulate_until_jackpot pn N w = Return sm w'
    ∧ run_trials pn (length rs) (w_rng w) = Return rs (w_rng w')
    ∧ Forall (λ r, ∃ t, prize r = tier_label t) rs
    ∧ draws sm = Z.of_nat (length rs)
    ∧ (length rs ≤ Z.to_nat N)%nat
    ∧ prize_counts sm = foldl bump initial_counts (prize <$> rs)
    ∧ jackpot_only_last rs
    ∧ (jackpot_achieved sm = true
         ∧ (∃ r, last rs = Some r ∧ is_jackpot r = true)
       ∨ jackpot_achieved sm = false ∧ length rs = Z.to_nat N
         ∧ Forall (λ r, is_jackpot r = false) rs)
    ∧ w_stdout w' = w_stdout w ++ Banner :: evs
    ∧ Forall is_progress evs
    ∧ theoretical_odds sm = calculate_odds
    ∧ years_equivalent sm = calculate_years (draws sm).
Proof.
  unfold simulate_until_jackpot, mbind, SE_bind, read_time, print.
  destruct (time_time (w_clock w)) as [t0 c0].
  match goal with |- context [for_loop ?body ?xs ?st ?w1] =>
    destruct (for_loop_spec pn (N `div` 20) xs st w1 keys_ok_initial)
      as (rs & s' & evs & np & b & Hlen & Hrun & Hprizes & Hloop & Hevs
          & Honly & Hend);
    rewrite Hloop end.
  simpl in *. rewrite length_seqZ in Hlen, Hend.
  destruct (time_time c0) as [t1 c1].
  eexists rs, _, _, evs. split; [reflexivity|]. simpl.
  rewrite (last_draw_number _ _ Hlen), <- app_assoc.
  split_and!; done.
Qed.
End Summary.

Lemma initial_counts_dom :
  dom initial_counts = list_to_set (tier_label <$> all_tiers).
Proof.
  apply set_eq. intros key. unfold initial_counts, all_tiers.
  rewrite !dom_insert_L, dom_empty_L. simpl. set_solver.
Qed.

(** C3. For every cap [N >= 1] (and any player numbers),
    [simulate_until_jackpot] returns a summary whose tally has the seven
    prize names as keys and sums to the reported number of draws; that
    number is at least 1 and at most [N], and it is exactly [N] whenever no
    jackpot was achieved. *)
Theorem simulate_tally_sum `{RandomSource} `{Clock}
    (pn : list Z) (N : Z) (w : world) :
  1 ≤ N →
  ∃ sm w',
    simulate_until_jackpot pn N w = Return sm w'
    ∧ dom (prize_counts sm) = list_to_set (tier_label <$> all_tiers)
    ∧ tally_total (prize_counts sm) = draws sm
    ∧ 1 ≤ draws sm ≤ N
    ∧ (jackpot_achieved sm = false → draws sm = N).
Proof.
  intros HN.
  destruct (simulate_until_jackpot_spec pn N w)
    as (rs & sm & w' & evs & Hsim & _ & Hprizes & Hdraws & Hlen & Hcounts
        & _ & Hend & _).
  destruct (tally_fold rs initial_counts keys_ok_initial Hprizes)
    as (Htot & Hdom & _).
  exists sm, w'. rewrite Hcounts, Hdom, Htot, Hdraws.
  assert (Hzero : tally_total initial_counts = 0) by (vm_compute; reflexivity).
  rewrite Hzero. clear Htot Hdom Hcounts Hprizes Hzero.
  split_and!; [done|apply initial_counts_dom|apply Z.add_0_l| |lia|].
  - destruct Hend as [(_ & r & Hlast & _)|(_ & Hfull & _)]; [|lia].
    apply last_Some in Hlast as [l' ->]. rewrite length_app, length_cons.
    lia.
  - intros Hno. destruct Hend as [[Hyes _]|(_ & Hfull & _)]; [congruence|].
    lia.
Qed.

Lemma simulate_tally_sum_witness :
  ∃ sm w',
    @simulate_until_jackpot tape_source tick_clock [1;2;3;4;5;6] 3
      (tape_world [3;1;4;1;5;9;2;6] 0 1) = Return sm w'
    ∧ dom (prize_counts sm) = list_to_set (tier_label <$> all_tiers)
    ∧ tally_total (prize_counts sm) = draws sm
    ∧ 1 ≤ draws sm ≤ 3
    ∧ (jackpot_achieved sm = false → draws sm = 3).
Proof.
  apply (@simulate_tally_sum tape_source tick_clock [1;2;3;4;5;6] 3
           (tape_world [3;1;4;1;5;9;2;6] 0 1)).
  lia.
Defined.

(** C5. The trials made by a run of [simulate_until_jackpot] are exactly the
    first [draws] trials of the random source, in order, and the random
    source is left in the state that follows them: no trial is made after
    the run stops.  Each of them is counted in the tally.  A jackpot trial
    can only be the last one; when the jackpot was achieved the last trial
    is a jackpot, so that [draws] is the position of the first jackpot, and
    otherwise no trial is a jackpot and [draws] is the cap. *)
Theorem simulate_stops_at_first_jackpot `{RandomSource} `{Clock}
    (pn : list Z) (N : Z) (w : world) :
  ∃ sm w' rs,
    simulate_until_jackpot pn N w = Return sm w'
    ∧ run_trials pn (Z.to_nat (draws sm)) (w_rng w) = Return rs (w_rng w')
    ∧ Z.of_nat (length rs) = draws sm
    ∧ draws sm ≤ Z.max 0 N
    ∧ prize_counts sm = foldl bump initial_counts (prize <$> rs)
    ∧ jackpot_only_last rs
    ∧ (if jackpot_achieved sm
       then ∃ r, last rs = Some r ∧ is_jackpot r = true
       else Forall (λ r, is_jackpot r = false) rs ∧ draws sm = Z.max 0 N).
Proof.
  destruct (simulate_until_jackpot_spec pn N w)
    as (rs & sm & w' & evs & Hsim & Hrun & _ & Hdraws & Hlen & Hcounts
        & Honly & Hend & _).
  exists sm, w', rs. rewrite Hdraws, Nat2Z.id.
  split_and!; [done|done|done|lia|done|done|].
  destruct Hend as [(-> & Hlast)|(-> & Hfull & Hnone)]; [done|].
  split; [done|lia].
Qed.

(** C9. The prize name computed by [check_prize] is always one of the seven
    keys of the initial tally; accordingly a run of [simulate_until_jackpot]
    never prints the unknown-category message, and its tally counts every
    draw: the counts sum to the number of draws. *)
Theorem prize_always_tally_key `{RandomSource} `{Clock}
    (pn wn : list Z) (a : Z) (N : Z) (w : world) :
  is_Some (initial_counts !! prize (check_prize pn wn a))
  ∧ prize (check_prize pn wn a) ∈ tier_label <$> all_tiers
  ∧ ∃ sm w' evs,
      simulate_until_jackpot pn N w = Return sm w'
      ∧ w_stdout w' = w_stdout w ++ evs
      ∧ Forall (λ e, ∀ key, e ≠ UnknownCategory key) evs
      ∧ tally_total (prize_counts sm) = draws sm.
Proof.
  split; [apply prize_key_ok, keys_ok_initial|]. split.
  { rewrite prize_spec_tier. apply list_elem_of_fmap_2.
    destruct (spec_tier _ _); unfold all_tiers; set_solver. }
  destruct (simulate_until_jackpot_spec pn N w)
    as (rs & sm & w' & evs & Hsim & _ & Hprizes & Hdraws & _ & Hcounts
        & _ & _ & Hout & Hevs & _).
  destruct (tally_fold rs initial_counts keys_ok_initial Hprizes)
    as (Htot & _ & _).
  exists sm, w', (Banner :: evs).
  split_and!; [done|done| |by rewrite Hcounts, Htot, Hdraws].
  constructor; [done|].
  clear -Hevs. eapply Forall_impl; [exact Hevs|].
  intros [| |key'] Hp key Heq; [discriminate Heq|discriminate Heq|].
  destruct Hp.
Qed.

(** C8. [calculate_odds] is 13,983,816, the number of ways of choosing 6
    numbers out of 49: the integer division that computes it is exact.  It
    is the odds reported by every run of [simulate_until_jackpot]. *)
Theorem calculate_odds_exact `{RandomSource} `{Clock}
    (pn : list Z) (N : Z) (w : world) :
  calculate_odds = 13983816
  ∧ factorial 49 = 13983816 * (factorial 6 * factorial 43)
  ∧ 13983816 * (6 * 5 * 4 * 3 * 2 * 1) = 49 * 48 * 47 * 46 * 45 * 44
  ∧ ∃ sm w',
      simulate_until_jackpot pn N w = Return sm w'
      ∧ theoretical_odds sm = 13983816.
Proof.
  split; [apply calculate_odds_value|].
  split; [vm_compute; reflexivity|]. split; [reflexivity|].
  destruct (simulate_until_jackpot_spec pn N w)
    as (rs & sm & w' & evs & Hsim & _ & _ & _ & _ & _ & _ & _ & _ & _
        & Hodds & _).
  exists sm, w'. split; [done|]. by rewrite Hodds, calculate_odds_value.
Qed.

(** ** A cap below one *)

(** C6, as stated, fails: with [max_draws = 0] the run raises nothing and
    returns a summary of zero draws. *)
Lemma simulate_zero_cap_returns :
  ¬ (∃ e, @simulate_until_jackpot tape_source tick_clock [1;2;3;4;5;6] 0
            (tape_world [3;1;4] 0 1) = Raise e)
  ∧ @simulate_until_jackpot tape_source tick_clock [1;2;3;4;5;6] 0
      (tape_world [3;1;4] 0 1)
    = Return {| draws := 0; jackpot_achieved := false;
                prize_counts := initial_counts; simulation_time := 1;
                theoretical_odds := 13983816; years_equivalent := 0 |}
             (@World tape_source tick_clock [3;1;4] (2, 1) [Banner]).
Proof.
  assert (Hrun : @simulate_until_jackpot tape_source tick_clock [1;2;3;4;5;6] 0
      (tape_world [3;1;4] 0 1)
    = Return {| draws := 0; jackpot_achieved := false;
                prize_counts := initial_counts; simulation_time := 1;
                theoretical_odds := 13983816; years_equivalent := 0 |}
             (@World tape_source tick_clock [3;1;4] (2, 1) [Banner])).
  { vm_compute. reflexivity. }
  split; [|exact Hrun]. intros [e He]. rewrite Hrun in He. discriminate.
Qed.

(** C6, amended.  [simulate_until_jackpot] does not check its cap: with
    [max_draws < 1] it raises no error, makes no trial (the random source is
    left untouched and only the banner is printed) and returns a summary with
    zero draws, no jackpot and the initial all-zero tally. *)
Theorem simulate_cap_below_one `{RandomSource} `{Clock}
    (pn : list Z) (N : Z) (w : world) :
  N < 1 →
  ∃ sm w',
    simulate_until_jackpot pn N w = Return sm w'
    ∧ draws sm = 0
    ∧ jackpot_achieved sm = false
    ∧ prize_counts sm = initial_counts
    ∧ w_rng w' = w_rng w
    ∧ w_stdout w' = w_stdout w ++ [Banner].
Proof.
  intros HN.
  unfold simulate_until_jackpot, mbind, SE_bind, read_time, print.
  destruct (time_time (w_clock w)) as [t0 c0].
  rewrite seqZ_nil by lia. simpl.
  destruct (time_time c0) as [t1 c1].
  eexists _, _. split; [reflexivity|]. by simpl.
Qed.

Lemma simulate_cap_below_one_witness :
  ∃ sm w',
    @simulate_until_jackpot tape_source tick_clock [1;2;3;4;5;6] (-5)
      (tape_world [3;1;4] 0 1) = Return sm w'
    ∧ draws sm = 0
    ∧ jackpot_achieved sm = false
    ∧ prize_counts sm = initial_counts
    ∧ w_rng w' = w_rng (tape_world [3;1;4] 0 1)
    ∧ w_stdout w' = w_stdout (tape_world [3;1;4] 0 1) ++ [Banner].
Proof.
  apply (@simulate_cap_below_one tape_source tick_clock [1;2;3;4;5;6] (-5)
           (tape_world [3;1;4] 0 1)).
  lia.
Defined.

(** ** Reproducibility *)

Section Reproducibility.
Context `{RandomSource} `{Clock}.

Lemma clock_blind_ret {A} (a : A) : clock_blind (mret a).
Proof. by intros c w. Qed.

Lemma clock_blind_bind {A B} (m : SE world A) (f : A → SE world B) :
  clock_blind m → (∀ a, clock_blind (f a)) → clock_blind (m ≫= f).
Proof.
  intros Hm Hf c w. unfold mbind, SE_bind. rewrite Hm.
  destruct (m w) as [e|a w1]; simpl; [done|]. apply Hf.
Qed.

Lemma clock_blind_lift_rng {A} (m : SE rng A) : clock_blind (lift_rng m).
Proof.
  intros c w. unfold lift_rng. simpl. by destruct (m (w_rng w)).
Qed.

Lemma clock_blind_print (e : event) : clock_blind (print e).
Proof. by intros c w. Qed.

Lemma clock_blind_loop_body pn pi i st :
  clock_blind (loop_body pn pi i st).
Proof.
  unfold loop_body.
  apply clock_blind_bind; [apply clock_blind_lift_rng|]. intros [wn a].
  apply clock_blind_bind.
  { destruct (_ !! _); [apply clock_blind_ret|].
    apply clock_blind_bind; [apply clock_blind_print|].
    intros _. apply clock_blind_ret. }
  intros counts. apply clock_blind_bind.
  { destruct (_ <=? _); [|apply clock_blind_ret].
    apply clock_blind_bind; [apply clock_blind_print|].
    intros _. apply clock_blind_ret. }
  intros np. destruct (is_jackpot _); apply clock_blind_ret.
Qed.

Lemma clock_blind_for_loop {L} (body : Z → L → SE world (L * bool)) xs :
  (∀ i st, clock_blind (body i st)) →
  ∀ st, clock_blind (for_loop body xs st).
Proof.
  intros Hbody. induction xs as [|i xs IH]; intros st; simpl.
  { apply clock_blind_ret. }
  apply clock_blind_bind; [apply Hbody|].
  intros [st' [|]]; [apply clock_blind_ret|apply IH].
Qed.

(** The draw and its classification do not depend on the clock. *)
Lemma play_toto_clock pn (s : rng) (out : list event) (c1 c2 : clock) :
  play_observed (play_toto pn (World s c1 out))
  = play_observed (play_toto pn (World s c2 out)).
Proof.
  unfold play_toto, mbind, SE_bind, lift_rng, read_date. simpl.
  destruct (generate_winning_numbers s) as [e|[wn a] s']; [done|]. simpl.
  destruct (now_strftime c1), (now_strftime c2). reflexivity.
Qed.

(** The simulation depends on the clock for [simulation_time] only. *)
Lemma simulate_clock pn (N : Z) (s : rng) (out : list event)
    (c1 c2 : clock) :
  summary_observed (simulate_until_jackpot pn N (World s c1 out))
  = summary_observed (simulate_until_jackpot pn N (World s c2 out)).
Proof.
  unfold simulate_until_jackpot, mbind, SE_bind, read_time, print. simpl.
  destruct (time_time c1) as [t1 c1'], (time_time c2) as [t2 c2'].
  cbn [w_rng w_clock w_stdout].
  pose proof (clock_blind_for_loop (loop_body pn (N `div` 20))
                (seqZ 1 N) (clock_blind_loop_body pn _)
                (Locals 0 initial_counts false (N `div` 20))) as Hblind.
  pose proof (Hblind c2' (World s c1' (out ++ [Banner]))) as Hrun.
  unfold set_clock in Hrun. cbn [w_rng w_clock w_stdout] in Hrun.
  rewrite Hrun. clear Hrun Hblind.
  destruct (for_loop _ _ _ _) as [e|st w1]; cbn [outcome_map]; [done|].
  cbn [w_rng w_clock w_stdout].
  destruct (time_time (w_clock w1)), (time_time c2'). reflexivity.
Qed.
End Reproducibility.

(** C7, as stated, fails: with the same tape in the random source and the
    same player numbers, two runs at different clock readings return
    different dictionaries ([draw_date] differs), and two simulations on
    clocks of different speed return different summaries ([simulation_time]
    differs). *)
Lemma same_seed_different_results :
  returned (@play_toto tape_source tick_clock [1;2;3;4;5;6]
              (tape_world [3;1;4;1;5;9;2;6] 0 1))
  ≠ returned (@play_toto tape_source tick_clock [1;2;3;4;5;6]
                (tape_world [3;1;4;1;5;9;2;6] 100 1))
  ∧ returned (@simulate_until_jackpot tape_source tick_clock [1;2;3;4;5;6] 3
                (tape_world [3;1;4;1;5;9;2;6] 0 1))
    ≠ returned (@simulate_until_jackpot tape_source tick_clock [1;2;3;4;5;6] 3
                  (tape_world [3;1;4;1;5;9;2;6] 0 2)).
Proof.
  split; intros E.
  - apply (f_equal (fmap draw_date)) in E. vm_compute in E. discriminate.
  - apply (f_equal (fmap simulation_time)) in E. vm_compute in E.
    discriminate.
Qed.

(** C7, amended.  From the same state of the random source (and the same
    console), two runs of [play_toto] with the same player numbers agree on
    the player numbers, the winning numbers, the additional number and the
    classification, and two runs of [simulate_until_jackpot] with the same
    player numbers and cap agree on the draws, the jackpot flag, the tally,
    the odds and the equivalent years; both leave the random source in the
    same state and print the same events, whatever the clocks are.  Only
    [draw_date] and [simulation_time] follow the clock. *)
Theorem runs_reproducible_up_to_clock `{RandomSource} `{Clock}
    (pn : list Z) (N : Z) (s : rng) (out : list event) (c1 c2 : clock) :
  play_observed (play_toto pn (World s c1 out))
  = play_observed (play_toto pn (World s c2 out))
  ∧ summary_observed (simulate_until_jackpot pn N (World s c1 out))
    = summary_observed (simulate_until_jackpot pn N (World s c2 out)).
Proof. split; [apply play_toto_clock|apply simulate_clock]. Qed.

(** ** Runs of the model *)

(** A cap of one draw: one draw is made and counted. *)
Example simulate_one_draw :
  let o := @simulate_until_jackpot tape_source tick_clock [1;2;3;4;5;6] 1
             (tape_world [3;1;4;1;5;9;2;6] 0 1) in
  (λ sm, (draws sm, jackpot_achieved sm, tally_total (prize_counts sm)))
    <$> returned o = Some (1, false, 1).
Proof. vm_compute. reflexivity. Qed.

(** A jackpot at the second of ten draws ends the run there: the tape makes
    the first draw miss, and the exhausted tape then draws the player's
    numbers. *)
Example simulate_jackpot_second_draw :
  let o := @simulate_until_jackpot tape_source tick_clock [1;45;46;47;48;49]
             10 (tape_world [1;1;1;1;1;1;0] 0 1) in
  (λ sm, (draws sm, jackpot_achieved sm,
          prize_counts sm !! "Group 1 Prize",
          tally_total (prize_counts sm))) <$> returned o
  = Some (2, true, Some 1, 2).
Proof. vm_compute. reflexivity. Qed.

(** * Further properties of the program *)

(** ** Classification: what the result depends on *)

Section ClassificationFacts.
Implicit Types (pn wn : list Z) (a : Z).

Lemma common_same_values pn pn' wn wn' :
  (∀ x, x ∈ pn ↔ x ∈ pn') → (∀ x, x ∈ wn ↔ x ∈ wn') →
  common pn wn = common pn' wn'.
Proof.
  intros Hp Hw. apply set_eq. intros x.
  by rewrite !elem_of_common, Hp, Hw.
Qed.

Lemma is_jackpot_size pn wn a :
  is_jackpot (check_prize pn wn a) = true ↔ size (common pn wn) = 6%nat.
Proof. simpl. rewrite Z.eqb_eq. lia. Qed.

Lemma size_list_to_set_le (l : list Z) :
  (size (list_to_set l : gset Z) ≤ length l)%nat.
Proof.
  replace (list_to_set l : gset Z) with (list_to_set (remove_dups l) : gset Z).
  - rewrite size_list_to_set by apply NoDup_remove_dups.
    induction l as [|x l IH]; simpl; [done|].
    case_decide; simpl; lia.
  - apply set_eq. intros x.
    by rewrite !elem_of_list_to_set, elem_of_remove_dups.
Qed.

(** Sorting a list of distinct numbers gives the sorted list with the same
    numbers. *)
Lemma sorted_unique (l k : list Z) :
  l ≡ₚ k → Sorted Z.le k → sorted l = k.
Proof.
  intros Hperm Hk. apply (Sorted_unique Z.le).
  - apply (Sorted_merge_sort Z.le).
  - done.
  - unfold sorted. by rewrite merge_sort_Permutation.
Qed.
End ClassificationFacts.

(** X1. What [check_prize] finds depends on the player numbers and on the
    winning numbers only through the values they contain: for two lists
    with the same values, in any order and with any repetitions, the prize,
    the match count, the additional flag and the jackpot flag are the same,
    and the matching numbers are the same values (their order apart). *)
Theorem check_prize_same_values (pn pn' wn wn' : list Z) (a : Z) :
  (∀ x, x ∈ pn ↔ x ∈ pn') → (∀ x, x ∈ wn ↔ x ∈ wn') →
  let r := check_prize pn wn a in
  let r' := check_prize pn' wn' a in
  prize r = prize r'
  ∧ matches_count r = matches_count r'
  ∧ has_additional r = has_additional r'
  ∧ is_jackpot r = is_jackpot r'
  ∧ matching_numbers r ≡ₚ matching_numbers r'.
Proof.
  intros Hp Hw r r'. subst r r'. unfold check_prize.
  cbn [prize matches_count has_additional is_jackpot matching_numbers].
  rewrite (common_same_values pn pn' wn wn' Hp Hw).
  replace (bool_decide (a ∈ pn)) with (bool_decide (a ∈ pn')).
  - split_and!; reflexivity.
  - apply bool_decide_ext. by rewrite Hp.
Qed.

Lemma check_prize_same_values_witness :
  let r := check_prize [6;5;4;3;2;1;1] [9;8;4;3;2;1] 5 in
  let r' := check_prize [1;2;3;4;5;6] [1;2;3;4;8;9] 5 in
  prize r = prize r'
  ∧ matches_count r = matches_count r'
  ∧ has_additional r = has_additional r'
  ∧ is_jackpot r = is_jackpot r'
  ∧ matching_numbers r ≡ₚ matching_numbers r'.
Proof.
  apply (check_prize_same_values [6;5;4;3;2;1;1] [1;2;3;4;5;6]
           [9;8;4;3;2;1] [1;2;3;4;8;9] 5).
  - intros x. rewrite !elem_of_cons, !elem_of_nil. tauto.
  - intros x. rewrite !elem_of_cons, !elem_of_nil. tauto.
Defined.

(** X2. For six distinct player numbers and winning numbers satisfying the
    NumberSet invariant, the jackpot flag is set exactly when the player
    numbers, once sorted, are the winning numbers. *)
Theorem jackpot_iff_same_numbers (pn wn : list Z) (a : Z) :
  NoDup pn → length pn = 6%nat → number_set wn →
  (is_jackpot (check_prize pn wn a) = true ↔ sorted pn = wn).
Proof.
  intros Hnd Hlen (Hwlen & Hwnd & _ & Hwsorted).
  rewrite is_jackpot_size. split.
  - intros Hsize. apply sorted_unique; [|done].
    apply NoDup_Permutation; [done..|].
    assert (Hp : common pn wn = list_to_set pn).
    { apply set_subseteq_size_eq; [unfold common; set_solver|].
      rewrite Hsize, size_list_to_set by done. lia. }
    assert (Hw : common pn wn = list_to_set wn).
    { apply set_subseteq_size_eq; [unfold common; set_solver|].
      rewrite Hsize, size_list_to_set by done. lia. }
    intros x.
    rewrite <- (elem_of_list_to_set (C:=gset Z) x pn), <- Hp, Hw.
    apply elem_of_list_to_set.
  - intros <-. unfold sorted.
    rewrite (common_same_values pn pn (merge_sort Z.le pn) pn).
    + unfold common. replace (list_to_set pn ∩ list_to_set pn : gset Z)
        with (list_to_set pn : gset Z) by set_solver.
      by rewrite size_list_to_set.
    + done.
    + intros x. by rewrite merge_sort_Permutation.
Qed.

Lemma jackpot_iff_same_numbers_witness :
  is_jackpot (check_prize [49;1;45;46;48;47] [1;45;46;47;48;49] 31) = true
  ↔ sorted [49;1;45;46;48;47] = [1;45;46;47;48;49].
Proof.
  apply (jackpot_iff_same_numbers [49;1;45;46;48;47] [1;45;46;47;48;49] 31).
  - apply (bool_decide_unpack _). vm_compute. exact I.
  - reflexivity.
  - apply (bool_decide_unpack _). vm_compute. exact I.
Defined.

(** X3. When the additional number is not one of the winning numbers, as in
    every generated draw, a six-number ticket cannot match it on top of six
    winning numbers: the match count plus one for a matched additional
    number is at most 6, so a jackpot never comes with the additional
    flag. *)
Theorem additional_excludes_full_match (pn wn : list Z) (a : Z) :
  length pn = 6%nat → a ∉ wn →
  let r := check_prize pn wn a in
  matches_count r + (if has_additional r then 1 else 0) ≤ 6
  ∧ (is_jackpot r = true → has_additional r = false).
Proof.
  intros Hlen Ha r.
  assert (Hbound : matches_count r + (if has_additional r then 1 else 0) ≤ 6).
  { subst r. simpl. pose proof (size_list_to_set_le pn) as Hle.
    case_bool_decide as Hin.
    - assert (Hsub : ({[a]} ∪ common pn wn : gset Z) ⊆ list_to_set pn).
      { unfold common. set_solver. }
      apply subseteq_size in Hsub.
      rewrite size_union, size_singleton in Hsub; [lia|].
      unfold common. set_solver.
    - pose proof (size_common_le pn wn). lia. }
  split; [exact Hbound|].
  intros Hj. apply is_jackpot_size in Hj.
  subst r. simpl in *. destruct (bool_decide (a ∈ pn)); [lia|done].
Qed.

Lemma additional_excludes_full_match_witness :
  let r := check_prize [1;2;3;4;5;6] [1;2;3;4;5;9] 6 in
  matches_count r + (if has_additional r then 1 else 0) ≤ 6
  ∧ (is_jackpot r = true → has_additional r = false).
Proof.
  apply (additional_excludes_full_match [1;2;3;4;5;6] [1;2;3;4;5;9] 6).
  - reflexivity.
  - intros Hin. apply (bool_decide_pack _) in Hin. vm_compute in Hin.
    exact Hin.
Defined.

(** ** The tally, tier by tier *)

Section TallyCounts.
Context `{RandomSource}.
Implicit Types (pn : list Z) (m : gmap string Z) (key : string).

Lemma bump_lookup m key key' :
  bump m key !! key'
  = (λ c, if decide (key' = key) then c + 1 else c) <$> m !! key'.
Proof.
  unfold bump. destruct (decide (key' = key)) as [->|Hne].
  - destruct (m !! key) as [c|] eqn:E; [by rewrite lookup_insert_eq|done].
  - destruct (m !! key) as [c|] eqn:E;
      [rewrite lookup_insert_ne by done|]; by destruct (m !! key').
Qed.

(** After counting a sequence of prize names, the entry of a key has grown
    by the number of its occurrences in the sequence. *)
Lemma foldl_bump_lookup (keys : list string) :
  ∀ m key,
    foldl bump m keys !! key
    = (λ c, c + Z.of_nat (length (filter (λ k, k = key) keys))) <$> m !! key.
Proof.
  induction keys as [|k keys IH]; intros m key; simpl.
  { destruct (m !! key); simpl; [f_equal; lia|done]. }
  rewrite IH, bump_lookup, filter_cons.
  destruct (m !! key) as [c|]; simpl; [|done]. f_equal.
  destruct (decide (k = key)) as [->|Hne].
  - rewrite decide_True by done. simpl. lia.
  - rewrite decide_False by done. lia.
Qed.

Lemma length_filter_fmap_prize (rs : list result) key :
  length (filter (λ k, k = key) (prize <$> rs))
  = length (filter (λ r, prize r = key) rs).
Proof.
  induction rs as [|r rs IH]; [done|].
  rewrite fmap_cons, !filter_cons.
  destruct (decide (prize r = key)); simpl; by rewrite IH.
Qed.

Lemma initial_counts_lookup t : initial_counts !! tier_label t = Some 0.
Proof. destruct t; vm_compute; reflexivity. Qed.

(** The trials of the random source are classifications of valid draws. *)
Lemma run_trials_results pn (k : nat) :
  ∀ (s : rng) rs s',
    run_trials pn k s = Return rs s' →
    length rs = k
    ∧ Forall (λ r, ∃ wn a, draw_ok wn a ∧ r = check_prize pn wn a) rs.
Proof.
  induction k as [|k IH]; intros s rs s' Hrun; simpl in Hrun.
  { injection Hrun as <- <-. by split. }
  unfold mbind, SE_bind, trial in Hrun.
  destruct (generate_winning_numbers_ok s) as (wn & a & s1 & Hgen & Hok).
  unfold mbind, SE_bind in Hrun. rewrite Hgen in Hrun.
  unfold mret at 1, SE_ret at 1 in Hrun.
  destruct (run_trials pn k s1) as [e|rs1 s2] eqn:Hrest; [done|].
  injection Hrun as <- <-.
  destruct (IH s1 rs1 s2 Hrest) as [Hlen Hall].
  split; [simpl; by rewrite Hlen|].
  constructor; [by exists wn, a|done].
Qed.

(** The trials of the random source never fail. *)
Lemma run_trials_returns pn (k : nat) :
  ∀ s : rng, ∃ rs s', run_trials pn k s = Return rs s'.
Proof.
  induction k as [|k IH]; intros s; simpl; [by eexists _, _|].
  destruct (trial_ok pn s) as (wn & a & s1 & _ & Htrial).
  destruct (IH s1) as (rs & s' & Hrest).
  unfold mbind, SE_bind. rewrite Htrial, Hrest. by eexists _, _.
Qed.

(** Fewer trials from the same state give a prefix of the results. *)
Lemma run_trials_prefix pn (k : nat) :
  ∀ (j : nat) (s : rng) rs s',
    run_trials pn k s = Return rs s' → (j ≤ k)%nat →
    ∃ s'', run_trials pn j s = Return (take j rs) s''
           ∧ (j = k → s'' = s').
Proof.
  induction k as [|k IH]; intros j s rs s' Hrun Hj.
  { assert (j = 0%nat) as -> by lia. simpl in *.
    injection Hrun as <- <-. by exists s. }
  destruct j as [|j].
  { exists s. split; [by rewrite take_0|lia]. }
  simpl in Hrun |- *. unfold mbind, SE_bind in Hrun |- *.
  destruct (trial pn s) as [e|r s1]; [done|].
  destruct (run_trials pn k s1) as [e|rs1 s2] eqn:Hrest; [done|].
  injection Hrun as <- <-.
  destruct (IH j s1 rs1 s2 Hrest ltac:(lia)) as (s'' & -> & Hs'').
  exists s''. split; [done|]. intros Hjk. apply Hs''. lia.
Qed.

Lemma prize_group1_iff_jackpot pn (wn : list Z) (a : Z) :
  prize (check_prize pn wn a) = "Group 1 Prize"
  ↔ is_jackpot (check_prize pn wn a) = true.
Proof.
  simpl. generalize (Z.of_nat (size (common pn wn))). intros m.
  destruct (m =? 6), (m =? 5), (m =? 4), (m =? 3), (bool_decide (a ∈ pn));
    simpl; split; congruence.
Qed.
End TallyCounts.

Section TallyTheorems.
Context `{RandomSource} `{Clock}.
Implicit Types (pn : list Z) (w : world).

Lemma jackpot_only_last_tail (r : result) (rs : list result) :
  jackpot_only_last (r :: rs) → jackpot_only_last rs.
Proof.
  intros Honly i r' Hl Hj.
  specialize (Honly (S i) r' Hl Hj). simpl in Honly. lia.
Qed.

(** In a sequence where only the last trial can be a jackpot, the number of
    top prizes is one or zero according to the last trial. *)
Lemma group1_count (rs : list result) :
  Forall (λ r, prize r = "Group 1 Prize" ↔ is_jackpot r = true) rs →
  jackpot_only_last rs →
  length (filter (λ r, prize r = "Group 1 Prize") rs)
  = match last rs with
    | Some r => if is_jackpot r then 1%nat else 0%nat
    | None => 0%nat
    end.
Proof.
  induction rs as [|r rs IH]; intros Hall Honly; [done|].
  apply Forall_cons in Hall as [Hr Hall].
  rewrite filter_cons. destruct (decide (prize r = "Group 1 Prize")) as [E|E].
  - apply Hr in E. pose proof (Honly 0%nat r eq_refl E) as Hlen.
    destruct rs; [|discriminate Hlen]. simpl. by rewrite E.
  - rewrite IH by eauto using jackpot_only_last_tail.
    destruct rs as [|r' rs]; [|done]. simpl.
    destruct (is_jackpot r) eqn:Hj; [|done]. destruct E. by apply Hr.
Qed.

(** The summary of a run, with its trials classified one by one. *)
Lemma simulate_trials pn (N : Z) w :
  ∃ sm w' rs,
    simulate_until_jackpot pn N w = Return sm w'
    ∧ run_trials pn (Z.to_nat (draws sm)) (w_rng w) = Return rs (w_rng w')
    ∧ Z.of_nat (length rs) = draws sm
    ∧ prize_counts sm = foldl bump initial_counts (prize <$> rs)
    ∧ Forall (λ r, ∃ wn a, draw_ok wn a ∧ r = check_prize pn wn a) rs
    ∧ jackpot_only_last rs
    ∧ (if jackpot_achieved sm
       then ∃ r, last rs = Some r ∧ is_jackpot r = true
       else Forall (λ r, is_jackpot r = false) rs)
    ∧ draws sm ≤ Z.max 0 N
    ∧ (jackpot_achieved sm = false → draws sm = Z.max 0 N)
    ∧ years_equivalent sm = calculate_years (draws sm).
Proof.
  destruct (simulate_until_jackpot_spec pn N w)
    as (rs & sm & w' & evs & Hsim & Hrun & _ & Hdraws & Hle & Hcounts
        & Honly & Hend & _ & _ & _ & Hyears).
  exists sm, w', rs. rewrite Hdraws, Nat2Z.id.
  destruct (run_trials_results pn _ _ _ _ Hrun) as [_ Hall].
  rewrite Hdraws in Hyears.
  split_and!; [done|done|done|done|done|done| |lia| |done].
  - destruct Hend as [(-> & Hlast)|(-> & _ & Hnone)]; done.
  - intros Hno. destruct Hend as [[Hyes _]|(_ & Hfull & _)]; [congruence|].
    lia.
Qed.
End TallyTheorems.

(** X4. Each entry of the tally returned by [simulate_until_jackpot] is the
    number of trials of the run that won that prize: for every tier, the
    count under its name is the number of trials, among the [draws] first
    trials of the random source, whose prize is that name. *)
Theorem tally_counts_each_tier `{RandomSource} `{Clock}
    (pn : list Z) (N : Z) (w : world) :
  ∃ sm w' rs,
    simulate_until_jackpot pn N w = Return sm w'
    ∧ run_trials pn (Z.to_nat (draws sm)) (w_rng w) = Return rs (w_rng w')
    ∧ ∀ t, prize_counts sm !! tier_label t
           = Some (Z.of_nat (length (filter (λ r, prize r = tier_label t) rs))).
Proof.
  destruct (simulate_trials pn N w)
    as (sm & w' & rs & Hsim & Hrun & _ & Hcounts & _).
  exists sm, w', rs. split; [done|]. split; [done|].
  intros t. rewrite Hcounts, foldl_bump_lookup, initial_counts_lookup.
  simpl. by rewrite length_filter_fmap_prize.
Qed.

(** X5. In the summary of [simulate_until_jackpot] the count of
    "Group 1 Prize" is 1 when the jackpot was achieved and 0 otherwise, and
    every count of the tally lies between 0 and the number of draws. *)
Theorem tally_entries_bounded `{RandomSource} `{Clock}
    (pn : list Z) (N : Z) (w : world) :
  ∃ sm w',
    simulate_until_jackpot pn N w = Return sm w'
    ∧ prize_counts sm !! "Group 1 Prize"
      = Some (if jackpot_achieved sm then 1 else 0)
    ∧ ∀ t, ∃ c, prize_counts sm !! tier_label t = Some c ∧ 0 ≤ c ≤ draws sm.
Proof.
  destruct (simulate_trials pn N w)
    as (sm & w' & rs & Hsim & _ & Hlen & Hcounts & Hall & Honly & Hend & _).
  exists sm, w'. split; [done|].
  assert (Hlook : ∀ t, prize_counts sm !! tier_label t
           = Some (Z.of_nat (length (filter (λ r, prize r = tier_label t) rs)))).
  { intros t. rewrite Hcounts, foldl_bump_lookup, initial_counts_lookup.
    simpl. by rewrite length_filter_fmap_prize. }
  clear Hcounts Hsim. split.
  - pose proof (Hlook JACKPOT) as Htop. cbn [tier_label] in Htop.
    rewrite Htop. clear Htop Hlook. f_equal.
    rewrite group1_count; [|clear -Hall|done].
    + destruct (jackpot_achieved sm).
      * destruct Hend as (r & -> & ->). reflexivity.
      * destruct (last rs) as [r|] eqn:Hlast; [|reflexivity].
        apply last_Some_elem_of in Hlast.
        rewrite Forall_forall in Hend. by rewrite (Hend r Hlast).
    + eapply Forall_impl; [exact Hall|].
      intros r (wn & a & _ & ->). apply prize_group1_iff_jackpot.
  - intros t. eexists. split; [apply Hlook|].
    pose proof (length_filter (λ r, prize r = tier_label t) rs). lia.
Qed.

(** ** Where a run stops *)

Section FirstJackpot.
Context `{RandomSource} `{Clock}.
Implicit Types (pn : list Z) (w : world) (rs : list result).

Lemma last_jackpot_lookup rs :
  (∃ r, last rs = Some r ∧ is_jackpot r = true) →
  ∃ r, rs !! pred (length rs) = Some r ∧ is_jackpot r = true
       ∧ (0 < length rs)%nat.
Proof.
  intros (r & Hlast & Hj). exists r. rewrite <- last_lookup.
  split_and!; [done|done|]. destruct rs; [discriminate Hlast|simpl; lia].
Qed.

(** Two runs of trials from the same state that both stop at a first
    jackpot, or of which the second stops at a jackpot or goes at least as
    far as the first, stop at the same trial. *)
Lemma first_jackpot_unique pn (s : rng) (k1 k2 : nat) rs1 rs2 s1 s2 :
  run_trials pn k1 s = Return rs1 s1 →
  run_trials pn k2 s = Return rs2 s2 →
  jackpot_only_last rs1 →
  (∃ r, last rs1 = Some r ∧ is_jackpot r = true) →
  jackpot_only_last rs2 →
  (∃ r, last rs2 = Some r ∧ is_jackpot r = true) ∨ (k1 ≤ k2)%nat →
  k1 = k2 ∧ rs1 = rs2 ∧ s1 = s2.
Proof.
  intros Hrun1 Hrun2 Honly1 Hlast1 Honly2 Hend2.
  destruct (run_trials_results pn _ _ _ _ Hrun1) as [Hlen1 _].
  destruct (run_trials_results pn _ _ _ _ Hrun2) as [Hlen2 _].
  apply last_jackpot_lookup in Hlast1 as (r1 & Hr1 & Hj1 & Hpos1).
  assert (Hk : k1 = k2).
  { destruct (Nat.lt_trichotomy k1 k2) as [Hlt|[Heq|Hgt]]; [|done|].
    - destruct (run_trials_prefix pn k2 k1 s rs2 s2 Hrun2 ltac:(lia))
        as (s'' & Hpre & _).
      rewrite Hrun1 in Hpre. injection Hpre as -> _.
      rewrite lookup_take_lt in Hr1 by (rewrite length_take; lia).
      pose proof (Honly2 _ _ Hr1 Hj1) as Hstop.
      rewrite length_take in Hstop. lia.
    - destruct Hend2 as [Hlast2|Hle]; [|lia].
      apply last_jackpot_lookup in Hlast2 as (r2 & Hr2 & Hj2 & Hpos2).
      destruct (run_trials_prefix pn k1 k2 s rs1 s1 Hrun1 ltac:(lia))
        as (s'' & Hpre & _).
      rewrite Hrun2 in Hpre. injection Hpre as -> _.
      rewrite lookup_take_lt in Hr2 by (rewrite length_take; lia).
      pose proof (Honly1 _ _ Hr2 Hj2) as Hstop.
      rewrite length_take in Hstop. lia. }
  rewrite <- Hk, Hrun1 in Hrun2. by injection Hrun2 as -> ->.
Qed.
End FirstJackpot.

Lemma simulate_at_first_jackpot `{RandomSource} `{Clock}
    (pn : list Z) (N : Z) (w : world)
    (k : nat) (rs : list result) (s' : rng) :
  run_trials pn k (w_rng w) = Return rs s' →
  jackpot_only_last rs →
  (∃ r, last rs = Some r ∧ is_jackpot r = true) →
  Z.of_nat k ≤ N →
  ∃ sm w',
    simulate_until_jackpot pn N w = Return sm w'
    ∧ draws sm = Z.of_nat k
    ∧ jackpot_achieved sm = true
    ∧ prize_counts sm = foldl bump initial_counts (prize <$> rs)
    ∧ w_rng w' = s'.
Proof.
  intros Hrun Honly Hlast Hk.
  destruct (simulate_trials pn N w)
    as (sm & w' & rs2 & Hsim & Hrun2 & Hlen2 & Hcounts & _ & Honly2 & Hend
        & Hle & Hfull & _).
  exists sm, w'. split; [done|]. clear Hsim.
  assert (Hcase : (∃ r, last rs2 = Some r ∧ is_jackpot r = true)
                  ∨ (k ≤ Z.to_nat (draws sm))%nat).
  { destruct (jackpot_achieved sm); [by left|right].
    rewrite Hfull by done. lia. }
  destruct (first_jackpot_unique pn _ _ _ _ _ _ _ Hrun Hrun2 Honly Hlast
              Honly2 Hcase) as (Hkk & <- & <-).
  split_and!; [lia| |done|done].
  destruct (jackpot_achieved sm); [done|].
  destruct Hlast as (r & Hr & Hj). apply last_Some_elem_of in Hr.
  rewrite Forall_forall in Hend. rewrite (Hend r Hr) in Hj. discriminate Hj.
Qed.


(** X6. If the [k]-th trial of the random source is its first jackpot and
    [k] is within the cap, [simulate_until_jackpot] stops there: it reports
    [k] draws and the jackpot, its tally counts exactly these [k] trials and
    the random source is left right after them. *)
Theorem first_jackpot_decides `{RandomSource} `{Clock}
    (pn : list Z) (N : Z) (w : world)
    (k : nat) (rs : list result) (s' : rng) :
  run_trials pn k (w_rng w) = Return rs s' →
  jackpot_only_last rs →
  (∃ r, last rs = Some r ∧ is_jackpot r = true) →
  Z.of_nat k ≤ N →
  ∃ sm w',
    simulate_until_jackpot pn N w = Return sm w'
    ∧ draws sm = Z.of_nat k
    ∧ jackpot_achieved sm = true
    ∧ prize_counts sm = foldl bump initial_counts (prize <$> rs)
    ∧ w_rng w' = s'.
Proof.
  intros Hrun Honly Hlast Hk.
  destruct (simulate_at_first_jackpot pn N w k rs s' Hrun Honly Hlast Hk)
    as (sm & w' & Hsim & Hdraws & Hyes & Hcounts & Hrng).
  exists sm, w'. split_and!; done.
Qed.

Lemma first_jackpot_decides_witness :
  ∃ sm w',
    @simulate_until_jackpot tape_source tick_clock [1;45;46;47;48;49] 10
      (tape_world [1;1;1;1;1;1;0] 0 1) = Return sm w'
    ∧ draws sm = Z.of_nat 2
    ∧ jackpot_achieved sm = true
    ∧ prize_counts sm
      = foldl bump initial_counts
          (prize <$> [check_prize [1;45;46;47;48;49] [2;45;46;47;48;49] 1;
                      check_prize [1;45;46;47;48;49] [1;45;46;47;48;49] 2])
    ∧ w_rng w' = [].
Proof.
  apply (@first_jackpot_decides tape_source tick_clock [1;45;46;47;48;49] 10
           (tape_world [1;1;1;1;1;1;0] 0 1) 2
           [check_prize [1;45;46;47;48;49] [2;45;46;47;48;49] 1;
            check_prize [1;45;46;47;48;49] [1;45;46;47;48;49] 2] []).
  - vm_compute. reflexivity.
  - intros [|[|i]] r Hl Hj; [|reflexivity|destruct i; discriminate Hl].
    injection Hl as <-. vm_compute in Hj. discriminate Hj.
  - eexists. split; [reflexivity|]. vm_compute. reflexivity.
  - vm_compute. discriminate.
Defined.

(** X7. If none of the first [max_draws] trials of the random source is a
    jackpot, [simulate_until_jackpot] makes them all: it reports [max_draws]
    draws (0 for a cap below 1), no jackpot, and a tally that counts exactly
    these trials. *)
Theorem no_jackpot_exhausts_cap `{RandomSource} `{Clock}
    (pn : list Z) (N : Z) (w : world) (rs : list result) (s' : rng) :
  run_trials pn (Z.to_nat N) (w_rng w) = Return rs s' →
  Forall (λ r, is_jackpot r = false) rs →
  ∃ sm w',
    simulate_until_jackpot pn N w = Return sm w'
    ∧ draws sm = Z.max 0 N
    ∧ jackpot_achieved sm = false
    ∧ prize_counts sm = foldl bump initial_counts (prize <$> rs)
    ∧ w_rng w' = s'.
Proof.
  intros Hrun Hnone.
  destruct (simulate_trials pn N w)
    as (sm & w' & rs2 & Hsim & Hrun2 & Hlen2 & Hcounts & _ & _ & Hend
        & Hle & Hfull & _).
  exists sm, w'. split; [done|]. clear Hsim.
  destruct (run_trials_prefix pn _ (Z.to_nat (draws sm)) _ _ _ Hrun
              ltac:(lia)) as (s'' & Hpre & Hsame).
  rewrite Hrun2 in Hpre. injection Hpre as Hrs2 Hs''.
  assert (Hno : jackpot_achieved sm = false).
  { destruct (jackpot_achieved sm); [|done].
    destruct Hend as (r & Hr & Hj). apply last_Some_elem_of in Hr.
    rewrite Hrs2 in Hr. apply elem_of_take in Hr as (i & Hr & _).
    apply list_elem_of_lookup_2 in Hr.
    rewrite Forall_forall in Hnone. rewrite (Hnone r Hr) in Hj.
    discriminate Hj. }
  specialize (Hfull Hno).
  destruct (run_trials_results pn _ _ _ _ Hrun) as [Hlen _].
  assert (Hk : Z.to_nat (draws sm) = Z.to_nat N) by lia.
  rewrite Hcounts, Hrs2, Hk, take_ge by lia.
  split_and!; [done|done|done|]. rewrite Hs''. by apply Hsame.
Qed.

Lemma no_jackpot_exhausts_cap_witness :
  ∃ sm w',
    @simulate_until_jackpot tape_source tick_clock [1;2;3;4;5;6] 2
      (tape_world [1;1;1;1;1;1;0] 0 1) = Return sm w'
    ∧ draws sm = Z.max 0 2
    ∧ jackpot_achieved sm = false
    ∧ prize_counts sm
      = foldl bump initial_counts
          (prize <$> [check_prize [1;2;3;4;5;6] [2;45;46;47;48;49] 1;
                      check_prize [1;2;3;4;5;6] [1;45;46;47;48;49] 2])
    ∧ w_rng w' = [].
Proof.
  apply (@no_jackpot_exhausts_cap tape_source tick_clock [1;2;3;4;5;6] 2
           (tape_world [1;1;1;1;1;1;0] 0 1)
           [check_prize [1;2;3;4;5;6] [2;45;46;47;48;49] 1;
            check_prize [1;2;3;4;5;6] [1;45;46;47;48;49] 2] []).
  - vm_compute. reflexivity.
  - repeat constructor.
Defined.

(** X8. Once a run achieves the jackpot, the cap no longer matters: from the
    same state of the random source, a run with any larger cap reports the
    same draws, the same jackpot, the same tally and the same equivalent
    years, and leaves the random source in the same state. *)
Theorem jackpot_run_cap_independent `{RandomSource} `{Clock}
    (pn : list Z) (N N' : Z) (w : world) (sm : summary) (w1 : world) :
  simulate_until_jackpot pn N w = Return sm w1 →
  jackpot_achieved sm = true →
  N ≤ N' →
  ∃ sm' w2,
    simulate_until_jackpot pn N' w = Return sm' w2
    ∧ draws sm' = draws sm
    ∧ jackpot_achieved sm' = true
    ∧ prize_counts sm' = prize_counts sm
    ∧ years_equivalent sm' = years_equivalent sm
    ∧ w_rng w2 = w_rng w1.
Proof.
  intros Hsim Hyes HN.
  destruct (simulate_trials pn N w)
    as (sm0 & w0 & rs & Hsim0 & Hrun & Hlen & Hcounts & _ & Honly & Hend
        & Hle & _ & Hyears).
  rewrite Hsim in Hsim0. injection Hsim0 as <- <-. clear Hsim.
  rewrite Hyes in Hend.
  assert (Hpos : (0 < length rs)%nat).
  { destruct Hend as (r & Hr & _). destruct rs; [discriminate Hr|simpl; lia]. }
  destruct (simulate_at_first_jackpot pn N' w _ _ _ Hrun Honly Hend
              ltac:(lia))
    as (sm' & w2 & Hsim' & Hdraws' & Hyes' & Hcounts' & Hrng').
  destruct (simulate_trials pn N' w)
    as (sm1 & w3 & _ & Hsim1 & _ & _ & _ & _ & _ & _ & _ & _ & Hyears').
  rewrite Hsim' in Hsim1. injection Hsim1 as <- <-.
  exists sm', w2. rewrite Hyears, Hyears', Hcounts, Hcounts', Hdraws'.
  split_and!; [done|lia|done|done|f_equal; lia|done].
Qed.

Lemma jackpot_run_cap_independent_witness :
  ∃ sm' w2,
    @simulate_until_jackpot tape_source tick_clock [1;45;46;47;48;49] 1000
      (tape_world [1;1;1;1;1;1;0] 0 1) = Return sm' w2
    ∧ draws sm' = 2
    ∧ jackpot_achieved sm' = true
    ∧ prize_counts sm'
      = foldl bump initial_counts ["Group 2 Prize"; "Group 1 Prize"]
    ∧ years_equivalent sm' = 0
    ∧ w_rng w2 = [].
Proof.
  apply (@jackpot_run_cap_independent tape_source tick_clock
           [1;45;46;47;48;49] 10 1000 (tape_world [1;1;1;1;1;1;0] 0 1)
           {| draws := 2; jackpot_achieved := true;
              prize_counts :=
                foldl bump initial_counts ["Group 2 Prize"; "Group 1 Prize"];
              simulation_time := 1; theoretical_odds := 13983816;
              years_equivalent := 0 |}
           (@World tape_source tick_clock [] (2, 1)
              [Banner; ProgressBar 1; ProgressBar 2])).
  - vm_compute. reflexivity.
  - reflexivity.
  - lia.
Defined.

(** ** The cadence of the progress bar *)

Section Progress.
Context `{RandomSource} `{Clock}.
Implicit Types (pn : list Z) (st : locals) (w : world).

Local Opaque check_prize.

Lemma progress_due_threshold (pi a np : Z) :
  1 ≤ a → next_progress_at pi a np →
  (np <=? a) = progress_due pi a.
Proof.
  intros Ha [[-> ->]|(Hpi & Hnp & q & ->)]; unfold progress_due.
  - simpl. apply Z.leb_le. lia.
  - destruct (Z.eqb_spec pi 0) as [?|_]; [lia|]. simpl.
    destruct (Z.leb_spec (pi * q) a) as [Hle|Hgt];
      destruct (Z.eqb_spec (a `mod` pi) 0) as [Hmod|Hmod]; try done.
    + destruct Hmod. assert (a = pi * q) as -> by lia.
      rewrite Z.mul_comm. apply Z.mod_mul. lia.
    + apply Z.mod_divide in Hmod as [q' ->]; [|lia]. exfalso.
      assert (q' < q) by nia. assert (q < q' + 1) by nia. lia.
Qed.

Lemma next_progress_at_step (pi a np : Z) :
  1 ≤ a → next_progress_at pi a np →
  next_progress_at pi (a + 1) (if np <=? a then np + pi else np).
Proof.
  intros Ha [[-> ->]|(Hpi & Hnp & q & ->)].
  - left. split; [done|]. by destruct (0 <=? a).
  - right. split; [done|].
    destruct (Z.leb_spec (pi * q) a) as [Hle|Hgt].
    + split; [lia|]. exists (q + 1). lia.
    + split; [lia|]. by exists q.
Qed.

Lemma seqZ_succ_nat (a : Z) (n : nat) :
  seqZ a (Z.of_nat (S n)) = a :: seqZ (a + 1) (Z.of_nat n).
Proof.
  rewrite seqZ_cons by lia. f_equal. f_equal; lia.
Qed.

Lemma filter_due_cons (pi a : Z) (l : list Z) :
  filter (λ i, progress_due pi i = true) (a :: l)
  = (if progress_due pi a then [a] else [])
    ++ filter (λ i, progress_due pi i = true) l.
Proof.
  rewrite filter_cons. destruct (progress_due pi a).
  - by rewrite decide_True.
  - by rewrite decide_False.
Qed.

(** One iteration, with what it prints. *)
Lemma loop_body_prints pn (pi i : Z) st w :
  keys_ok (l_prize_counts st) →
  ∃ r s' counts flag,
    loop_body pn pi i st w
    = Return (Locals i counts flag
                (if l_next_progress st <=? i
                 then l_next_progress st + pi else l_next_progress st),
              is_jackpot r)
             (World s' (w_clock w)
                (w_stdout w ++ (if l_next_progress st <=? i
                                then [ProgressBar i] else [])))
    ∧ keys_ok counts.
Proof.
  intros Hkeys.
  destruct (trial_ok pn (w_rng w)) as (wn & a & s' & Hgen & _).
  destruct (prize_key_ok _ pn wn a Hkeys) as [c Hc].
  exists (check_prize pn wn a), s'.
  unfold loop_body, mbind, SE_bind, lift_rng. rewrite Hgen, Hc.
  unfold mret, SE_ret, print. cbn [w_rng w_clock w_stdout].
  assert (Hk : keys_ok (<[prize (check_prize pn wn a) := c + 1]>
                          (l_prize_counts st))).
  { pose proof (keys_ok_bump _ (prize (check_prize pn wn a)) Hkeys) as Hb.
    unfold bump in Hb. by rewrite Hc in Hb. }
  destruct (l_next_progress st <=? i); cbn [w_rng w_clock w_stdout];
    rewrite ?app_nil_r;
    destruct (is_jackpot (check_prize pn wn a)); by eexists _, _.
Qed.

(** The loop over the draw numbers [a, a+1, ...]: it prints the progress
    bar at the draws where it is due, up to the last draw made. *)
Lemma for_loop_prints pn (pi : Z) (n : nat) :
  ∀ (a : Z) st w,
    1 ≤ a → keys_ok (l_prize_counts st) →
    next_progress_at pi a (l_next_progress st) →
    ∃ st' w' (k : nat),
      for_loop (loop_body pn pi) (seqZ a (Z.of_nat n)) st w = Return st' w'
      ∧ (k ≤ n)%nat
      ∧ l_draws st' = (if k is O then l_draws st else a + Z.of_nat k - 1)
      ∧ w_stdout w'
        = w_stdout w
          ++ (ProgressBar <$> filter (λ i, progress_due pi i = true)
                                (seqZ a (Z.of_nat k))).
Proof.
  induction n as [|n IH]; intros a st w Ha Hkeys Hnp.
  { exists st, w, 0%nat. simpl. by rewrite app_nil_r. }
  rewrite seqZ_succ_nat. simpl for_loop.
  destruct (loop_body_prints pn pi a st w Hkeys)
    as (r & s' & counts & flag & Hbody & Hkeys').
  unfold mbind at 1, SE_bind at 1. rewrite Hbody.
  rewrite (progress_due_threshold pi a _ Ha Hnp).
  destruct (is_jackpot r).
  - eexists _, _, 1%nat. split; [reflexivity|].
    cbn [l_draws w_stdout]. split; [lia|]. split; [lia|].
    rewrite (seqZ_succ_nat a 0), filter_due_cons.
    by destruct (progress_due pi a).
  - match goal with |- context [for_loop _ _ ?st1 ?w1] =>
      destruct (IH (a + 1) st1 w1) as (st' & w' & k & Hloop & Hk & Hdraws & Hout)
    end.
    + lia.
    + done.
    + cbn [l_next_progress].
      rewrite <- (progress_due_threshold pi a _ Ha Hnp).
      by apply next_progress_at_step.
    + exists st', w', (S k). split; [exact Hloop|]. split; [lia|].
      cbn [l_draws w_stdout] in Hdraws, Hout. split.
      * rewrite Hdraws. destruct k; lia.
      * rewrite Hout, seqZ_succ_nat, filter_due_cons, fmap_app, <- app_assoc.
        f_equal. by destruct (progress_due pi a).
Qed.
End Progress.

(** X9. The console output of [simulate_until_jackpot] is the banner
    followed by one progress bar for each draw made whose number is a
    multiple of [max_draws // 20], or for every draw made when
    [max_draws < 20]; nothing else is printed. *)
Theorem progress_bar_cadence `{RandomSource} `{Clock}
    (pn : list Z) (N : Z) (w : world) :
  ∃ sm w',
    simulate_until_jackpot pn N w = Return sm w'
    ∧ w_stdout w'
      = w_stdout w
        ++ Banner :: (ProgressBar <$> filter (λ i, progress_due (N `div` 20) i = true)
                                        (seqZ 1 (draws sm))).
Proof.
  unfold simulate_until_jackpot, mbind, SE_bind, read_time, print.
  destruct (time_time (w_clock w)) as [t0 c0].
  cbn [w_rng w_clock w_stdout].
  destruct (Z.le_gt_cases N 0) as [HN|HN].
  { rewrite seqZ_nil by lia. simpl.
    destruct (time_time c0) as [t1 c1]. eexists _, _.
    split; [reflexivity|]. by simpl. }
  replace (seqZ 1 N) with (seqZ 1 (Z.of_nat (Z.to_nat N)))
    by (f_equal; lia).
  match goal with |- context [for_loop _ _ ?st ?w1] =>
    destruct (for_loop_prints pn (N `div` 20) (Z.to_nat N) 1 st w1)
      as (st' & w' & k & Hloop & Hk & Hdraws & Hout)
  end.
  - lia.
  - apply keys_ok_initial.
  - cbn [l_next_progress].
    destruct (Z.eq_dec (N `div` 20) 0) as [E|E]; [left; by rewrite E|].
    right. assert (0 < N `div` 20).
    { pose proof (Z.div_pos N 20). lia. }
    split; [done|]. split; [lia|]. exists 1. lia.
  - rewrite Hloop. unfold mret, SE_ret.
    destruct (time_time (w_clock w')) as [t1 c1].
    eexists _, _. split; [reflexivity|].
    cbn [draws w_stdout l_draws] in *. rewrite Hout, <- app_assoc.
    replace (l_draws st') with (Z.of_nat k); [done|].
    rewrite Hdraws. destruct k; lia.
Qed.

(** The cadence on small runs: a bar at every draw below 20 draws, and at
    the multiples of 2 for a cap of 45. *)
Example progress_due_examples :
  filter (λ i, progress_due (5 `div` 20) i = true) (seqZ 1 5) = [1;2;3;4;5]
  ∧ filter (λ i, progress_due (45 `div` 20) i = true) (seqZ 1 9) = [2;4;6;8]
  ∧ filter (λ i, progress_due (1000000 `div` 20) i = true)
      [1; 49999; 50000; 50001; 100000; 1000000] = [50000; 100000; 1000000].
Proof. vm_compute. done. Qed.

(** ** A single play *)

Section SinglePlay.
Context `{RandomSource} `{Clock}.
Implicit Types (pn : list Z) (w : world).

Local Opaque check_prize.

Lemma play_toto_unfold pn w (wn : list Z) (a : Z) (s' : rng) :
  generate_winning_numbers (w_rng w) = Return (wn, a) s' →
  play_toto pn w
  = Return {| draw_date := (now_strftime (w_clock w)).1;
              player_numbers := sorted pn;
              winning_numbers := wn;
              additional_number := a;
              result_of := check_prize pn wn a |}
           (World s' (now_strftime (w_clock w)).2 (w_stdout w)).
Proof.
  intros Hgen. unfold play_toto, mbind, SE_bind, lift_rng, read_date.
  rewrite Hgen. cbn [w_rng w_clock w_stdout].
  by destruct (now_strftime (w_clock w)).
Qed.

Lemma run_one_trial pn (s : rng) (rs : list result) (s' : rng) :
  run_trials pn 1 s = Return rs s' →
  ∃ r, rs = [r] ∧ trial pn s = Return r s'.
Proof.
  simpl. unfold mbind, SE_bind. intros Hrun.
  destruct (trial pn s) as [e|r s1]; [discriminate Hrun|].
  injection Hrun as <- <-. by exists r.
Qed.
End SinglePlay.

(** X10. [play_toto] never raises.  It draws once from the random source, a
    valid draw, and returns it with the classification of the player numbers
    as they were passed against that draw and with a sorted copy of the
    player numbers; it reads the clock once for the date and prints
    nothing. *)
Theorem play_toto_result `{RandomSource} `{Clock} (pn : list Z) (w : world) :
  ∃ p w',
    play_toto pn w = Return p w'
    ∧ generate_winning_numbers (w_rng w)
      = Return (winning_numbers p, additional_number p) (w_rng w')
    ∧ draw_ok (winning_numbers p) (additional_number p)
    ∧ result_of p
      = check_prize pn (winning_numbers p) (additional_number p)
    ∧ player_numbers p ≡ₚ pn ∧ Sorted Z.le (player_numbers p)
    ∧ (draw_date p, w_clock w') = now_strftime (w_clock w)
    ∧ w_stdout w' = w_stdout w.
Proof.
  destruct (generate_winning_numbers_ok (w_rng w))
    as (wn & a & s' & Hgen & Hok).
  eexists _, _. split; [by apply play_toto_unfold|].
  cbn [winning_numbers additional_number result_of player_numbers draw_date
       w_rng w_clock w_stdout].
  split_and!; [done|done|done| | |by destruct (now_strftime _)|done].
  - apply merge_sort_Permutation.
  - apply (Sorted_merge_sort Z.le).
Qed.

(** X11. A single play and a simulation capped at one draw, started from
    the same state of the random source, see the same draw: the simulation
    reports one draw, achieves the jackpot exactly when the play's result is
    a jackpot, counts the play's prize once, and both leave the random
    source in the same state. *)
Theorem single_play_is_first_trial `{RandomSource} `{Clock}
    (pn : list Z) (w : world) :
  ∃ p w1 sm w2,
    play_toto pn w = Return p w1
    ∧ simulate_until_jackpot pn 1 w = Return sm w2
    ∧ draws sm = 1
    ∧ jackpot_achieved sm = is_jackpot (result_of p)
    ∧ prize_counts sm = bump initial_counts (prize (result_of p))
    ∧ w_rng w2 = w_rng w1.
Proof.
  destruct (trial_ok pn (w_rng w)) as (wn & a & s' & Hgen & Htrial).
  destruct (simulate_trials pn 1 w)
    as (sm & w2 & rs & Hsim & Hrun & Hlen & Hcounts & _ & _ & Hend
        & Hle & Hfull & _).
  eexists _, _, sm, w2. split; [by apply play_toto_unfold|].
  split; [done|]. clear Hsim.
  cbn [result_of w_rng].
  assert (Hone : draws sm = 1).
  { destruct (jackpot_achieved sm); [|by rewrite Hfull].
    destruct Hend as (r & Hr & _).
    destruct rs; [discriminate Hr|]. simpl in Hlen. lia. }
  rewrite Hone in Hrun. change (Z.to_nat 1) with 1%nat in Hrun.
  apply run_one_trial in Hrun as (r & -> & Hr).
  rewrite Htrial in Hr. injection Hr as <- <-.
  split_and!; [done| |done|done].
  destruct (jackpot_achieved sm).
  - destruct Hend as (r & Hr & Hj). by injection Hr as <-.
  - by apply Forall_cons in Hend as [-> _].
Qed.

(** ** Every valid draw can be generated *)

Section Reachability.

Lemma tape_rand_below (n j : Z) (rest : list Z) :
  0 ≤ j < n → @rand_below tape_source n (j :: rest) = Return j rest.
Proof.
  intros Hj. unfold rand_below. simpl. by rewrite Z.mod_small.
Qed.

(** The selection loop can return any sequence of distinct elements of the
    live part of the pool: a tape that points at each of them in turn makes
    it do so. *)
Lemma sample_pool_reaches {A} (targets : list A) :
  ∀ (pool : list A) (n i : Z),
    n - i ≤ Z.of_nat (length pool) →
    NoDup targets → targets ⊆ take (Z.to_nat (n - i)) pool →
    ∃ tape, ∀ rest,
      @sample_pool tape_source A pool n i (length targets) (tape ++ rest)
      = Return targets rest.
Proof.
  induction targets as [|x ts IH]; intros pool n i Hlen Hnd Hsub.
  { by exists []. }
  apply NoDup_cons in Hnd as [Hx Hnd].
  assert (Hin : x ∈ take (Z.to_nat (n - i)) pool) by (apply Hsub; by left).
  apply list_elem_of_lookup_1 in Hin as [j Hj].
  pose proof (lookup_lt_Some _ _ _ Hj) as Hjlt. rewrite length_take in Hjlt.
  rewrite lookup_take_lt in Hj by lia.
  destruct (lookup_lt_is_Some_2 pool (Z.to_nat (n - i - 1))) as [y Hy];
    [lia|].
  pose proof (pool_step pool (Z.to_nat (n - i - 1)) j x y Hj Hy ltac:(lia))
    as Hperm.
  replace (S (Z.to_nat (n - i - 1))) with (Z.to_nat (n - i)) in Hperm by lia.
  destruct (IH (<[j := y]> pool) n (i + 1)) as [tape Htape].
  - rewrite length_insert. lia.
  - done.
  - replace (n - (i + 1)) with (n - i - 1) by lia.
    intros z Hz. assert (Hzin : z ∈ take (Z.to_nat (n - i)) pool).
    { apply Hsub. by right. }
    rewrite <- Hperm in Hzin. apply elem_of_app in Hzin as [Hzin|Hzx]; [done|].
    apply list_elem_of_singleton in Hzx as ->. done.
  - exists (Z.of_nat j :: tape). intros rest.
    cbn [length sample_pool app]. unfold mbind at 1, SE_bind at 1.
    rewrite tape_rand_below by lia.
    unfold mbind at 1, SE_bind at 1.
    rewrite (list_get_lookup pool (Z.of_nat j) x) by (lia || by rewrite Nat2Z.id).
    unfold mbind at 1, SE_bind at 1.
    rewrite (list_get_lookup pool (n - i - 1) y) by (lia || done).
    unfold mbind at 1, SE_bind at 1.
    rewrite Nat2Z.id, Htape. reflexivity.
Qed.

Lemma choice_reaches {A} (seq : list A) (x : A) :
  x ∈ seq → ∃ j, @choice tape_source A seq [j] = Return x [].
Proof.
  intros Hin. apply list_elem_of_lookup_1 in Hin as [j Hj].
  pose proof (lookup_lt_Some _ _ _ Hj) as Hjlt.
  exists (Z.of_nat j). unfold choice.
  destruct (decide (length seq = 0%nat)) as [E|_]; [lia|].
  unfold mbind, SE_bind. rewrite tape_rand_below by lia.
  apply list_get_lookup; [lia|by rewrite Nat2Z.id].
Qed.
End Reachability.

(** X12. Every valid draw can come out of [generate_winning_numbers]: for
    six sorted distinct numbers of 1..49 and an additional number of 1..49
    outside them, some sequence of values of the random source makes the
    function return exactly that draw. *)
Theorem every_draw_reachable (wn : list Z) (a : Z) :
  draw_ok wn a →
  ∃ tape, @generate_winning_numbers tape_source tape = Return (wn, a) [].
Proof.
  intros ((Hlen & Hnd & Hrange & Hsorted) & Ha & Hnotin).
  destruct (sample_pool_reaches wn number_range 49 0) as [tape Htape].
  - vm_compute. discriminate.
  - done.
  - rewrite take_ge by (vm_compute; lia). intros x Hx.
    apply elem_of_seqZ. rewrite Forall_forall in Hrange.
    specialize (Hrange x Hx). lia.
  - destruct (choice_reaches
                (sorted (elements (list_to_set number_range
                                     ∖ list_to_set wn : gset Z)))
                a) as [j Hj].
    { apply elem_of_sorted, elem_of_elements, elem_of_difference.
      rewrite !elem_of_list_to_set. split; [|done]. apply elem_of_seqZ. lia. }
    exists (tape ++ [j]).
    unfold generate_winning_numbers, mbind, SE_bind, sample.
    change (Z.of_nat (length number_range)) with 49.
    change (negb ((0 <=? numbers_to_pick) && (numbers_to_pick <=? 49)))
      with false. cbv iota.
    change (Z.to_nat numbers_to_pick) with 6%nat. rewrite <- Hlen, Htape.
    rewrite (sorted_unique wn wn) by done. by rewrite Hj.
Qed.

Lemma every_draw_reachable_witness :
  ∃ tape,
    @generate_winning_numbers tape_source tape
    = Return ([3;11;19;27;35;43], 7) [].
Proof.
  apply (every_draw_reachable [3;11;19;27;35;43] 7).
  split; [apply (bool_decide_unpack _); vm_compute; exact I|].
  split; [lia|].
  intros Hin. apply (bool_decide_pack _) in Hin. vm_compute in Hin.
  exact Hin.
Defined.

(** ** The odds computation in general *)

Section Combinations.

Lemma foldr_mul_acc (l : list Z) (b : Z) :
  foldr Z.mul b l = b * foldr Z.mul 1 l.
Proof. induction l as [|x l IH]; simpl; [lia|]. rewrite IH. lia. Qed.

Lemma factorial_0 : factorial 0 = 1.
Proof. reflexivity. Qed.

Lemma factorial_succ (n : nat) :
  factorial (Z.of_nat (S n)) = Z.of_nat (S n) * factorial (Z.of_nat n).
Proof.
  unfold factorial. rewrite seqZ_S, foldr_app. simpl foldr at 2.
  rewrite foldr_mul_acc. lia.
Qed.

Lemma factorial_pos (n : nat) : 0 < factorial (Z.of_nat n).
Proof.
  induction n as [|n IH]; [done|]. rewrite factorial_succ. lia.
Qed.

Lemma pascal_above (n : nat) : ∀ k : nat, (n < k)%nat → pascal n k = 0.
Proof.
  induction n as [|n IH]; intros [|k] Hk; simpl; try lia.
  rewrite !IH by lia. done.
Qed.

Lemma pascal_diag (n : nat) : pascal n n = 1.
Proof.
  induction n as [|n IH]; [done|]. simpl.
  rewrite IH, pascal_above by lia. done.
Qed.

(** Pascal's number times the two factorials is the factorial. *)
Lemma pascal_factorial (n : nat) :
  ∀ k : nat, (k ≤ n)%nat →
    pascal n k * (factorial (Z.of_nat k) * factorial (Z.of_nat (n - k)))
    = factorial (Z.of_nat n).
Proof.
  induction n as [|n IH]; intros k Hk.
  { assert (k = 0%nat) as -> by lia. reflexivity. }
  destruct k as [|k].
  { simpl pascal. rewrite Nat.sub_0_r. change (Z.of_nat 0) with 0.
    rewrite factorial_0. lia. }
  destruct (decide (k = n)) as [->|Hne].
  { rewrite pascal_diag, Nat.sub_diag. change (Z.of_nat 0) with 0.
    rewrite factorial_0. lia. }
  cbn [pascal]. replace (S n - S k)%nat with (n - k)%nat by lia.
  pose proof (IH k ltac:(lia)) as IH1.
  pose proof (IH (S k) ltac:(lia)) as IH2.
  replace (n - k)%nat with (S (n - S k)) in IH1 |- * by lia.
  rewrite !factorial_succ in *.
  replace (Z.of_nat (S (n - S k))) with (Z.of_nat n - Z.of_nat k) in * by lia.
  set (fk := factorial (Z.of_nat k)) in *.
  set (fr := factorial (Z.of_nat (n - S k))) in *.
  set (fn := factorial (Z.of_nat n)) in *.
  set (p1 := pascal n k) in *. set (p2 := pascal n (S k)) in *.
  replace ((p1 + p2) * (Z.of_nat (S k) * fk * ((Z.of_nat n - Z.of_nat k) * fr)))
    with (Z.of_nat (S k) * (p1 * (fk * ((Z.of_nat n - Z.of_nat k) * fr)))
          + (Z.of_nat n - Z.of_nat k) * (p2 * (Z.of_nat (S k) * fk * fr)))
    by ring.
  rewrite IH1, IH2. lia.
Qed.
End Combinations.

(** X13. For [0 <= r <= n] the local function [combinations] of
    [calculate_odds] is the binomial coefficient: its floor division is
    exact, and its value is the number given by Pascal's rule. *)
Theorem combinations_binomial (n r : Z) :
  0 ≤ r ≤ n →
  combinations n r * (factorial r * factorial (n - r)) = factorial n
  ∧ combinations n r = pascal (Z.to_nat n) (Z.to_nat r).
Proof.
  intros Hr.
  pose proof (pascal_factorial (Z.to_nat n) (Z.to_nat r) ltac:(lia)) as Hp.
  rewrite Nat2Z.inj_sub, !Z2Nat.id in Hp by lia.
  pose proof (factorial_pos (Z.to_nat r)) as Hr1.
  pose proof (factorial_pos (Z.to_nat (n - r))) as Hr2.
  rewrite Z2Nat.id in Hr1, Hr2 by lia.
  assert (Hc : combinations n r = pascal (Z.to_nat n) (Z.to_nat r)).
  { unfold combinations. rewrite <- Hp. apply Z.div_mul. lia. }
  split; [by rewrite Hc|done].
Qed.

Lemma combinations_binomial_witness :
  combinations 49 6 * (factorial 6 * factorial (49 - 6)) = factorial 49
  ∧ combinations 49 6 = pascal (Z.to_nat 49) (Z.to_nat 6).
Proof. apply (combinations_binomial 49 6). lia. Defined.

(** ** Entering the player numbers *)

Section UserNumbers.
Implicit Types (numbers : list Z) (stdin : list attempt)
  (stdout : list message).

Lemma size_list_to_set_NoDup numbers :
  size (list_to_set numbers : gset Z) = length numbers ↔ NoDup numbers.
Proof.
  split; [|apply size_list_to_set].
  induction numbers as [|x l IH]; intros Hsize; [constructor|].
  rewrite list_to_set_cons in Hsize. simpl in Hsize.
  pose proof (size_list_to_set_le l) as Hle.
  destruct (decide (x ∈ l)) as [Hin|Hnotin].
  - replace ({[x]} ∪ list_to_set l : gset Z) with (list_to_set l : gset Z)
      in Hsize; [lia|].
    apply set_eq. intros y. rewrite elem_of_union, elem_of_singleton,
      elem_of_list_to_set. split; [tauto|]. intros [->|?]; done.
  - rewrite size_union, size_singleton in Hsize.
    + constructor; [done|]. apply IH. lia.
    + intros y Hy1 Hy2. apply elem_of_singleton in Hy1 as ->.
      by apply elem_of_list_to_set in Hy2.
Qed.

Lemma forallb_range numbers :
  forallb (λ num, (1 <=? num) && (num <=? 49)) numbers = true
  ↔ Forall (λ x, 1 ≤ x ≤ 49) numbers.
Proof.
  rewrite forallb_forall, Forall_forall. split; intros Hall x Hx.
  - apply list_elem_of_In, Hall, andb_prop in Hx as [H1 H2]. lia.
  - apply list_elem_of_In, Hall in Hx.
    apply andb_true_intro. split; lia.
Qed.

(** The three checks of the function pass exactly on the acceptable
    entries. *)
Lemma checks_acceptable numbers :
  acceptable numbers ↔
    bool_decide (length numbers ≠ 6%nat) = false
    ∧ bool_decide (size (list_to_set numbers : gset Z) ≠ 6%nat) = false
    ∧ negb (forallb (λ num, (1 <=? num) && (num <=? 49)) numbers) = false.
Proof.
  rewrite !bool_decide_eq_false, negb_false_iff, forallb_range.
  unfold acceptable. split.
  - intros (Hlen & Hnd & Hrange). split_and!; [lia| |done].
    apply size_list_to_set_NoDup in Hnd. lia.
  - intros (Hlen & Hsize & Hrange).
    assert (Hlen' : length numbers = 6%nat) by lia.
    split_and!; [done| |done].
    apply size_list_to_set_NoDup. lia.
Qed.

Lemma acceptable_sorted numbers :
  acceptable numbers → number_set (sorted numbers).
Proof.
  intros (Hlen & Hnd & Hrange). unfold sorted, number_set.
  pose proof (merge_sort_Permutation Z.le numbers) as Hperm.
  split_and!; [by rewrite Hperm|by rewrite Hperm|by rewrite Hperm|].
  apply (Sorted_merge_sort Z.le).
Qed.

Lemma get_user_numbers_reject (a : attempt) stdin stdout :
  rejected a →
  ∃ e, e ≠ PromptNumbers
       ∧ get_user_numbers (a :: stdin) stdout
         = get_user_numbers stdin (stdout ++ [PromptNumbers; e]).
Proof.
  destruct a as [|numbers]; simpl; intros Hrej; [by exists ErrorInvalid|].
  rewrite checks_acceptable in Hrej.
  destruct (bool_decide (length numbers ≠ 6%nat)); [by exists ErrorCount|].
  destruct (bool_decide (size (list_to_set numbers : gset Z) ≠ 6%nat));
    [by exists ErrorUnique|].
  destruct (negb _); [by exists ErrorRange|]. by destruct Hrej.
Qed.

Lemma get_user_numbers_accept numbers stdin stdout :
  acceptable numbers →
  get_user_numbers (Numbers numbers :: stdin) stdout
  = (Some (sorted numbers), stdin, stdout ++ [PromptNumbers]).
Proof.
  intros (H1 & H2 & H3)%checks_acceptable.
  cbn [get_user_numbers]. by rewrite H1, H2, H3.
Qed.
End UserNumbers.

(** X14. Whatever is typed, a list returned by [get_user_numbers] satisfies
    the NumberSet invariant: six numbers, distinct, in 1..49, sorted
    ascending. *)
Theorem get_user_numbers_number_set (stdin : list attempt)
    (stdout : list message) (numbers : list Z) (rest : list attempt)
    (stdout' : list message) :
  get_user_numbers stdin stdout = (Some numbers, rest, stdout') →
  number_set numbers.
Proof.
  revert stdout. induction stdin as [|a stdin IH]; intros stdout Hget.
  { discriminate Hget. }
  destruct a as [|l]; simpl in Hget; [by eapply IH|].
  destruct (bool_decide (length l ≠ 6%nat)) eqn:E1; [by eapply IH|].
  destruct (bool_decide (size (list_to_set l : gset Z) ≠ 6%nat)) eqn:E2;
    [by eapply IH|].
  destruct (negb _) eqn:E3; [by eapply IH|].
  injection Hget as <- _ _. apply acceptable_sorted.
  by apply checks_acceptable.
Qed.

Lemma get_user_numbers_number_set_witness : number_set [3;7;12;25;31;49].
Proof.
  apply (get_user_numbers_number_set
           [Unparsable; Numbers [1;2;3]; Numbers [49;3;31;7;25;12]] []
           [3;7;12;25;31;49] []
           [PromptNumbers; ErrorInvalid; PromptNumbers; ErrorCount;
            PromptNumbers]).
  vm_compute. reflexivity.
Defined.

(** X15. [get_user_numbers] returns the first acceptable entry, sorted: when
    the lines before it are all rejected (not integers, not six of them,
    repeated, or out of 1..49), it prints the prompt and one error for each
    of them and the prompt once more, and leaves the following lines
    unread. *)
Theorem get_user_numbers_first_acceptable (pre : list attempt)
    (numbers : list Z) (rest : list attempt) (stdout : list message) :
  Forall rejected pre → acceptable numbers →
  ∃ msgs,
    get_user_numbers (pre ++ Numbers numbers :: rest) stdout
    = (Some (sorted numbers), rest, stdout ++ msgs)
    ∧ length msgs = (2 * length pre + 1)%nat
    ∧ length (filter (λ m, m = PromptNumbers) msgs) = S (length pre).
Proof.
  intros Hpre Hacc. revert stdout.
  induction Hpre as [|a pre Ha Hpre IH]; intros stdout.
  { exists [PromptNumbers]. rewrite app_nil_l.
    by rewrite (get_user_numbers_accept _ _ _ Hacc). }
  destruct (get_user_numbers_reject a (pre ++ Numbers numbers :: rest)
              stdout Ha) as (e & Hne & He).
  destruct (IH (stdout ++ [PromptNumbers; e])) as (msgs & Hget & Hlen & Hp).
  exists (PromptNumbers :: e :: msgs).
  simpl app at 1. rewrite He, Hget, <- app_assoc.
  split; [done|]. split; [simpl; lia|].
  rewrite filter_cons_True, (filter_cons_False _ e) by done.
  simpl. by rewrite Hp.
Qed.

Lemma get_user_numbers_first_acceptable_witness :
  ∃ msgs,
    get_user_numbers
      ([Unparsable; Numbers [1;2;3]; Numbers [5;5;6;7;8;9];
        Numbers [0;1;2;3;4;5]]
       ++ Numbers [49;3;31;7;25;12] :: [Numbers [1;2;3;4;5;6]]) []
    = (Some (sorted [49;3;31;7;25;12]), [Numbers [1;2;3;4;5;6]], [] ++ msgs)
    ∧ length msgs = (2 * 4 + 1)%nat
    ∧ length (filter (λ m, m = PromptNumbers) msgs) = 5%nat.
Proof.
  apply (get_user_numbers_first_acceptable
           [Unparsable; Numbers [1;2;3]; Numbers [5;5;6;7;8;9];
            Numbers [0;1;2;3;4;5]]
           [49;3;31;7;25;12] [Numbers [1;2;3;4;5;6]] []).
  - repeat constructor.
    + intros (Hlen & _). discriminate Hlen.
    + intros (_ & Hnd & _). apply (bool_decide_pack _) in Hnd.
      vm_compute in Hnd. exact Hnd.
    + intros (_ & _ & Hrange). apply (bool_decide_pack _) in Hrange.
      vm_compute in Hrange. exact Hrange.
  - apply (bool_decide_unpack _). vm_compute. exact I.
Defined.


